(** * GoChannel: the in-process Pub/Sub of watermill

    A shallow embedding of [gochannel.GoChannel] (Publish, sendMessage,
    sendMessageToSubscriber, Subscribe and its registration goroutine,
    Close) and the properties of its delivery, retry, replay and shutdown
    behaviour.

    One goroutine's call is a function from the shared state of the engine
    and a schedule to an outcome, the new state and the unused rest of the
    schedule.  The schedule lists, for each [select] the call reaches,
    which of its cases fires.  Whether the consumer takes, acks or nacks a
    copy, and whether an armed timer fires first, is decided outside the
    engine, so the schedule is free there.  What depends on the state is
    checked against it: the shutdown case needs [closing] to be closed,
    the timer case needs a timer that was armed, a push to a nil queue
    never fires, and a push to a closed queue proceeds by panicking, as a
    send on a closed channel does in Go.  A call whose schedule ends while
    it waits is [Blocked].

    Lock operations, logger calls and writes to the shared maps are
    recorded, in program order, in the log of the state.  The messages and
    the channels live in two stores indexed by pointers, so that a copy is
    a new object and the consumer's ack or nack marks that object only. *)

From Stdlib Require Import ZArith Lia.
From stdpp Require Import base option list gmap strings.

Local Open Scope string_scope.
Local Open Scope list_scope.

(** ** Messages *)

(** A [*message.Message] is an index into the heap of message objects;
    an index outside the heap plays the role of [nil]. *)
Definition ptr := nat.

(** A [chan *message.Message] is an index into the store of channels;
    an index outside the store plays the role of the nil channel. *)
Definition chan := nat.

(** Modelled from the spec: the acknowledgment state of a message
    instance of package [message], which is not among the sources: pending,
    acked or nacked. *)
Inductive ackType := noAckSent | ack | nack.

(** A [context.Context] as far as the engine uses it: the background
    context, or one made by [context.WithCancel] with its cancelled bit. *)
Inductive context := Background | WithCancel (cancelled : bool).

(** Modelled from the spec: the message envelope of package [message],
    which is not among the sources: an identifier, metadata, a payload,
    the acknowledgment state of this instance (pending until exactly one
    of acked or nacked is signalled) and its execution context. *)
Record Message := mkMessage {
  UUID : string;
  Metadata : list (string * string);
  Payload : string;
  ackSent : ackType;
  ctx : context
}.

(** Modelled from the spec: [Message.Copy], which is not among the
    sources: an independent clone with the identifier, metadata and
    payload of the receiver, a fresh (pending) acknowledgment state and a
    fresh context that is not cancelled. *)
Definition Copy (m : Message) : Message :=
  mkMessage (UUID m) (Metadata m) (Payload m) noAckSent (WithCancel false).

(** Modelled from the spec: [Message.SetContext], which is not among the
    sources: attaches an execution context to a message instance. *)
Definition SetContext (c : context) (m : Message) : Message :=
  mkMessage (UUID m) (Metadata m) (Payload m) (ackSent m) c.

(** Modelled from the spec: the consumer's [Ack] and [Nack] on a copy,
    which are not among the sources: the signal becomes observable on
    that instance only. *)
Definition setAck (a : ackType) (m : Message) : Message :=
  mkMessage (UUID m) (Metadata m) (Payload m) a (ctx m).

(** The [cancelCtx] of a context made by [context.WithCancel]. *)
Definition cancelCtx (m : Message) : Message :=
  match ctx m with
  | Background => m
  | WithCancel _ => SetContext (WithCancel true) m
  end.

(** ** Channels, subscribers and the engine *)

(** A channel of messages: its capacity, whether it was closed, and every
    message pushed into it so far, oldest first.  Whether a push finds
    room (or a waiting receiver) depends on the consumer and is part of
    the schedule. *)
Record channel := mkChannel {
  capacity : Z;
  chClosed : bool;
  sent : list ptr
}.

Record subscriber := mkSubscriber {
  uuid : string;
  outputChannel : chan
}.

(** The fields of [GoChannel] that hold data.  [closing] is the channel
    closed by [Close] ([true] once closed).  The two locks and the logger
    hold no data of their own; their calls are events of the log.
    [messages] is only written in persistent mode, where the constructor
    makes it a non-nil map. *)
Record GoChannel := mkGoChannel {
  sendTimeout : Z;
  outputChannelBuffer : Z;
  subscribers : gmap string (list subscriber);
  closed : bool;
  closing : bool;
  persistent : bool;
  messages : gmap string (list ptr)
}.

Definition noTimeout : Z := (-1)%Z.

Definition NewGoChannel (outputChannelBuffer sendTimeout : Z) : GoChannel :=
  mkGoChannel sendTimeout outputChannelBuffer ∅ false false false ∅.

Definition NewPersistentGoChannel (outputChannelBuffer sendTimeout : Z) : GoChannel :=
  mkGoChannel sendTimeout outputChannelBuffer ∅ false false true ∅.

(** ** Events, errors and outcomes *)

Inductive mutex := subscribersLock | messagesMutex.

Inductive event :=
| EvLock (l : mutex)
| EvUnlock (l : mutex)
| EvRLock (l : mutex)
| EvRUnlock (l : mutex)
| EvCopy (src dst : ptr)                 (* dst := src.Copy() *)
| EvSend (c : chan) (m : ptr)            (* c <- m *)
| EvTrace (text message_uuid subscriber_uuid : string)  (* g.logger.Trace *)
| EvAppend (topic : string) (ms : list ptr)   (* g.messages[topic] = append(..) *)
| EvRegister (topic : string) (s : subscriber) (* g.subscribers[topic] = append(..) *)
| EvGo (topic : string) (s : subscriber)      (* go func(s) {...}(s) *)
| EvCloseClosing                              (* close(g.closing) *)
| EvClose (c : chan).                         (* close(subscriber.outputChannel) *)

(** The error made by [errors.Errorf("Sending message %s timeouted after %s", ..)]. *)
Inductive error := SendTimeouted (message_uuid : string) (after : Z).

Inductive panic :=
| NilPointerDereference
| SendOnClosedChannel
| CloseOfClosedChannel
| CloseOfNilChannel
| MakeChanSizeOutOfRange
| PanicError (e : error).

(** The case of a [select] that fires. *)
Inductive choice :=
| Push          (* case s.outputChannel <- msgToSend *)
| TimerFires    (* case <-timeout *)
| Shutdown      (* case <-g.closing *)
| Acks          (* case <-msgToSend.Acked() *)
| Nacks.        (* case <-msgToSend.Nacked() *)

(** What a call does under a schedule: it returns, it panics, it is still
    waiting in a [select] when the schedule ends, or the schedule names a
    case that cannot fire in the state the [select] is reached in. *)
Inductive outcome (A : Type) : Type :=
| Returned (a : A)
| Panicked (p : panic)
| Blocked
| Infeasible.
Arguments Returned {A} a.
Arguments Panicked {A} p.
Arguments Blocked {A}.
Arguments Infeasible {A}.

(** ** The shared state *)

Record world := mkWorld {
  heap : list Message;
  chans : list channel;
  engine : GoChannel;
  spawned : list (string * subscriber);   (* goroutines started and not yet run *)
  log : list event
}.

Definition setHeap (h : list Message) (w : world) : world :=
  mkWorld h (chans w) (engine w) (spawned w) (log w).
Definition setChans (c : list channel) (w : world) : world :=
  mkWorld (heap w) c (engine w) (spawned w) (log w).
Definition setEngine (e : GoChannel) (w : world) : world :=
  mkWorld (heap w) (chans w) e (spawned w) (log w).
Definition setSpawned (l : list (string * subscriber)) (w : world) : world :=
  mkWorld (heap w) (chans w) (engine w) l (log w).
Definition emit (e : event) (w : world) : world :=
  mkWorld (heap w) (chans w) (engine w) (spawned w) (log w ++ [e]).

Definition M (A : Type) : Type :=
  world → list choice → outcome A * world * list choice.

Definition ret {A} (a : A) : M A := λ w o, (Returned a, w, o).

Definition bind {A B} (m : M A) (k : A → M B) : M B := λ w o,
  match m w o with
  | (Returned a, w', o') => k a w' o'
  | (Panicked p, w', o') => (Panicked p, w', o')
  | (Blocked, w', o') => (Blocked, w', o')
  | (Infeasible, w', o') => (Infeasible, w', o')
  end.

(** [defer f] around a body: [f] runs when the body returns or panics,
    not while it is still waiting. *)
Definition deferred {A} (f : world → world) (body : M A) : M A := λ w o,
  match body w o with
  | (Returned a, w', o') => (Returned a, f w', o')
  | (Panicked p, w', o') => (Panicked p, f w', o')
  | r => r
  end.

Definition tell (e : event) : M unit := λ w o, (Returned tt, emit e w, o).
Definition throw {A} (p : panic) : M A := λ w o, (Panicked p, w, o).

Declare Scope go_scope.
Delimit Scope go_scope with go.
Notation "x <- m ;; k" := (bind m (λ x, k))
  (at level 100, m at next level, right associativity) : go_scope.
Notation "m ;;; k" := (bind m (λ _, k))
  (at level 100, right associativity) : go_scope.

(** ** Delivery to one subscriber *)

(** The [timeout] channel of one attempt: [time.After(sendTimeout)], or a
    channel nobody writes to. *)
Inductive timer := After (d : Z) | Never.

Definition timeoutChan (sendTimeout : Z) : timer :=
  if (sendTimeout =? noTimeout)%Z then Never else After sendTimeout.

(** The deferred [cancelCtx()] calls of the copies made by one call. *)
Definition runDeferred (ds : list ptr) (w : world) : world :=
  setHeap (foldr (λ p h, alter cancelCtx p h) (heap w) ds) w.

Definition pushTo (c : chan) (ch : channel) (p : ptr) (w : world) : world :=
  emit (EvSend c p)
    (setChans (<[c := mkChannel (capacity ch) (chClosed ch) (sent ch ++ [p])]> (chans w)) w).

Definition signal (a : ackType) (p : ptr) (w : world) : world :=
  setHeap (alter (setAck a) p (heap w)) w.

(** The loop labelled [SendToSubscriber].  [ds] are the copies made by the
    earlier rounds of this call, whose contexts are cancelled on exit. *)
Fixpoint sendLoop (msg : ptr) (s : subscriber) (sendTimeout : Z)
    (ds : list ptr) (o : list choice) (w : world) {struct o}
    : outcome (option error) * world * list choice :=
  match heap w !! msg with
  | None => (Panicked NilPointerDereference, runDeferred ds w, o)
  | Some m =>
    let msgToSend := length (heap w) in
    let w1 := emit (EvCopy msg msgToSend)
                (setHeap (heap w ++ [SetContext (WithCancel false) (Copy m)]) w) in
    let ds1 := msgToSend :: ds in
    let timeout := timeoutChan sendTimeout in
    match o with
    | [] => (Blocked, w1, [])
    | Push :: o1 =>
      match chans w1 !! outputChannel s with
      | None => (Infeasible, w1, o)
      | Some ch =>
        if chClosed ch then (Panicked SendOnClosedChannel, runDeferred ds1 w1, o1)
        else
          let w2 := emit (EvTrace "Sent message to subscriber" (UUID m) (uuid s))
                      (pushTo (outputChannel s) ch msgToSend w1) in
          match o1 with
          | [] => (Blocked, w2, [])
          | Acks :: o2 =>
            (Returned None,
             runDeferred ds1
               (emit (EvTrace "Message acked" (UUID m) (uuid s))
                  (signal ack msgToSend w2)), o2)
          | Nacks :: o2 =>
            sendLoop msg s sendTimeout ds1 o2
              (emit (EvTrace "Nack received, resending message" (UUID m) (uuid s))
                 (signal nack msgToSend w2))
          | Shutdown :: o2 =>
            if closing (engine w2) then
              (Returned None,
               runDeferred ds1
                 (emit (EvTrace "Closing, message discarded" (UUID m) (uuid s)) w2), o2)
            else (Infeasible, w2, o1)
          | _ :: _ => (Infeasible, w2, o1)
          end
      end
    | TimerFires :: o1 =>
      match timeout with
      | After d => (Returned (Some (SendTimeouted (UUID m) d)), runDeferred ds1 w1, o1)
      | Never => (Infeasible, w1, o)
      end
    | Shutdown :: o1 =>
      if closing (engine w1) then
        (Returned None,
         runDeferred ds1
           (emit (EvTrace "Closing, message discarded" (UUID m) (uuid s)) w1), o1)
      else (Infeasible, w1, o)
    | _ :: _ => (Infeasible, w1, o)
    end
  end.

Definition sendMessageToSubscriber (msg : ptr) (s : subscriber) (sendTimeout : Z)
    : M (option error) :=
  λ w o, sendLoop msg s sendTimeout [] o w.

(** ** Publish *)

Definition gets {A} (f : world → A) : M A := λ w o, (Returned (f w), w, o).
Definition modify (f : world → world) : M unit := λ w o, (Returned tt, f w, o).

Local Open Scope go_scope.

(** The loop of [sendMessage] over the subscribers of the topic. *)
Fixpoint serve (message : ptr) (subs : list subscriber) : M (option error) :=
  match subs with
  | [] => ret None
  | s :: rest =>
    t <- gets (λ w, sendTimeout (engine w)) ;;
    err <- sendMessageToSubscriber message s t ;;
    match err with
    | Some e => ret (Some e)
    | None => serve message rest
    end
  end.

Definition sendMessage (topic : string) (message : ptr) : M (option error) :=
  tell (EvRLock subscribersLock) ;;;
  deferred (emit (EvRUnlock subscribersLock))
    (found <- gets (λ w, subscribers (engine w) !! topic) ;;
     match found with
     | None => ret None
     | Some subs => serve message subs
     end).

Definition setMessages (ms : gmap string (list ptr)) (g : GoChannel) : GoChannel :=
  mkGoChannel (sendTimeout g) (outputChannelBuffer g) (subscribers g)
    (closed g) (closing g) (persistent g) ms.

(** [g.messages[topic] = append(g.messages[topic], messages...)], after
    the entry of the topic was made if it was missing. *)
Definition appendMessages (topic : string) (msgs : list ptr) (g : GoChannel) : GoChannel :=
  let ms := match messages g !! topic with
            | Some _ => messages g
            | None => <[topic := []]> (messages g)
            end in
  setMessages (<[topic := default [] (ms !! topic) ++ msgs]> ms) g.

(** The first half of [Publish]: the append to the retention log. *)
Definition record (topic : string) (msgs : list ptr) : M unit :=
  p <- gets (λ w, persistent (engine w)) ;;
  if (p : bool) then
    tell (EvLock messagesMutex) ;;;
    modify (λ w, setEngine (appendMessages topic msgs (engine w)) w) ;;;
    tell (EvAppend topic msgs) ;;;
    tell (EvUnlock messagesMutex)
  else ret tt.

(** The second half of [Publish]: the loop over the messages. *)
Fixpoint deliver (topic : string) (msgs : list ptr) : M (option error) :=
  match msgs with
  | [] => ret None
  | msg :: rest =>
    err <- sendMessage topic msg ;;
    match err with
    | Some e => ret (Some e)
    | None => deliver topic rest
    end
  end.

Definition Publish (topic : string) (msgs : list ptr) : M (option error) :=
  record topic msgs ;;; deliver topic msgs.

(** ** Subscribe *)

Definition setSubscribers (ss : gmap string (list subscriber)) (g : GoChannel) : GoChannel :=
  mkGoChannel (sendTimeout g) (outputChannelBuffer g) ss
    (closed g) (closing g) (persistent g) (messages g).

(** [g.subscribers[topic] = append(g.subscribers[topic], s)], after the
    entry of the topic was made if it was missing. *)
Definition appendSubscriber (topic : string) (s : subscriber) (g : GoChannel) : GoChannel :=
  let ss := match subscribers g !! topic with
            | Some _ => subscribers g
            | None => <[topic := []]> (subscribers g)
            end in
  setSubscribers (<[topic := default [] (ss !! topic) ++ [s]]> ss) g.

(** The replay of the retained messages of the topic to the new
    subscriber; an error of a send panics. *)
Fixpoint replay (msgs : list ptr) (s : subscriber) : M unit :=
  match msgs with
  | [] => ret tt
  | msg :: rest =>
    err <- sendMessageToSubscriber msg s noTimeout ;;
    match err with
    | Some e => throw (PanicError e)
    | None => replay rest s
    end
  end.

(** The first part of the goroutine started by [Subscribe]: in
    persistent mode, the replay of the retained messages of the topic. *)
Definition replayRetained (topic : string) (s : subscriber) : M unit :=
  p <- gets (λ w, persistent (engine w)) ;;
  if (p : bool) then
    found <- gets (λ w, messages (engine w) !! topic) ;;
    match found with
    | Some msgs => replay msgs s
    | None => ret tt
    end
  else ret tt.

(** The body of the goroutine started by [Subscribe]. *)
Definition subscribeRoutine (topic : string) (s : subscriber) : M unit :=
  tell (EvRLock messagesMutex) ;;;
  replayRetained topic s ;;;
  tell (EvLock subscribersLock) ;;;
  deferred (emit (EvUnlock subscribersLock))
    (tell (EvRUnlock messagesMutex) ;;;
     modify (λ w, setEngine (appendSubscriber topic s (engine w)) w) ;;;
     tell (EvRegister topic s)).

(** [Subscribe]; [u] is the string of the identifier drawn by
    [uuid.NewV4()].  [make] panics on a negative buffer size. *)
Definition Subscribe (topic : string) (u : string) : M (chan * option error) := λ w o,
  let n := outputChannelBuffer (engine w) in
  if (n <? 0)%Z then (Panicked MakeChanSizeOutOfRange, w, o)
  else
    let s := mkSubscriber u (length (chans w)) in
    (Returned (outputChannel s, None),
     emit (EvGo topic s)
       (setSpawned (spawned w ++ [(topic, s)])
          (setChans (chans w ++ [mkChannel n false []]) w)), o).

(** ** Close *)

Definition setClosed (b : bool) (g : GoChannel) : GoChannel :=
  mkGoChannel (sendTimeout g) (outputChannelBuffer g) (subscribers g)
    b (closing g) (persistent g) (messages g).
Definition setClosing (b : bool) (g : GoChannel) : GoChannel :=
  mkGoChannel (sendTimeout g) (outputChannelBuffer g) (subscribers g)
    (closed g) b (persistent g) (messages g).

(** [close(c)] on a subscriber's queue. *)
Definition closeChan (c : chan) : M unit := λ w o,
  match chans w !! c with
  | None => (Panicked CloseOfNilChannel, w, o)
  | Some ch =>
    if chClosed ch then (Panicked CloseOfClosedChannel, w, o)
    else (Returned tt,
          emit (EvClose c)
            (setChans (<[c := mkChannel (capacity ch) true (sent ch)]> (chans w)) w), o)
  end.

Fixpoint closeAll (subs : list subscriber) : M unit :=
  match subs with
  | [] => ret tt
  | s :: rest => closeChan (outputChannel s) ;;; closeAll rest
  end.

(** The subscribers of all topics, in the order the two nested loops of
    [Close] meet them (Go leaves the order of the topics open; it is the
    order of [map_to_list] here). *)
Definition allSubscribers (g : GoChannel) : list subscriber :=
  flat_map snd (map_to_list (subscribers g)).

(** [Close] once it found the closed flag unset. *)
Definition closeNow : M (option error) :=
  modify (λ w, setEngine (setClosed true (engine w)) w) ;;;
  (c <- gets (λ w, closing (engine w)) ;;
   if (c : bool) then throw CloseOfClosedChannel
   else modify (λ w, setEngine (setClosing true (engine w)) w) ;;;
        tell EvCloseClosing) ;;;
  tell (EvLock subscribersLock) ;;;
  deferred (emit (EvUnlock subscribersLock))
    (subs <- gets (λ w, allSubscribers (engine w)) ;;
     closeAll subs ;;;
     ret None).

Definition Close : M (option error) := λ w o,
  if closed (engine w) then (Returned None, w, o) else closeNow w o.

(** A fresh engine with no message and no channel yet. *)
Definition newWorld (g : GoChannel) : world := mkWorld [] [] g [] [].

(** Modelled from the spec: a message as the producer makes it, with its
    identifier and payload, no metadata, pending and with no context of
    its own ([message.NewMessage] is not among the sources). *)
Definition NewMessage (u payload : string) : Message :=
  mkMessage u [] payload noAckSent Background.

Definition alloc (m : Message) (w : world) : world := setHeap (heap w ++ [m]) w.

(** The scheduler starting the oldest goroutine that was started by
    [Subscribe] and has not run yet. *)
Definition runGoroutine : M unit := λ w o,
  match spawned w with
  | [] => (Returned tt, w, o)
  | (topic, s) :: rest => subscribeRoutine topic s (setSpawned rest w) o
  end.

(** * Vocabulary of the properties *)

Local Open Scope nat_scope.

Ltac loop_cases :=
  repeat (simpl in *;
          match goal with
          | |- context [match ?x with _ => _ end] => destruct x eqn:?
          end);
  simpl in *.

(** A channel keeps its capacity and its closed flag, and what was pushed
    into it stays pushed. *)
Definition chanGrows (ch ch' : channel) : Prop :=
  capacity ch' = capacity ch ∧ chClosed ch' = chClosed ch ∧
  sent ch `prefix_of` sent ch'.

(** The events of a delivery to the subscriber with identifier [u]:
    copies, pushes, and logger calls that name [u]. *)
Definition deliveryEvent (u : string) (e : event) : Prop :=
  match e with
  | EvCopy _ _ | EvSend _ _ => True
  | EvTrace _ _ u' => u' = u
  | _ => False
  end.

Ltac log_done :=
  rewrite <- ?app_assoc; simpl; eexists; split;
  [reflexivity | repeat constructor; done].

(** [extends w w']: the engine and the started goroutines are the same,
    the messages and the log of [w] are still there, and every channel
    has grown. *)
Record extends (w w' : world) : Prop := mkExtends {
  ext_engine : engine w' = engine w;
  ext_spawned : spawned w' = spawned w;
  ext_heap : heap w `prefix_of` heap w';
  ext_chans : Forall2 chanGrows (chans w) (chans w');
  ext_log : log w `prefix_of` log w'
}.

(** A monadic computation whose every run relates the state it starts in
    to the state it ends in. *)
Definition steady {A} (R : world → world → Prop) (m : M A) : Prop :=
  ∀ w o, R w (m w o).1.2.

Definition noError (r : outcome (option error)) : Prop :=
  ∀ e, r ≠ Returned (Some e).

Definition timeoutDisabled (w : world) : Prop :=
  sendTimeout (engine w) = noTimeout.

(** An engine with the message [m1] allocated at pointer 0 and one
    subscriber [s1] registered on topic [orders] with queue 0. *)
Definition demo (g : GoChannel) : world :=
  let w0 := alloc (NewMessage "m1" "hello") (newWorld g) in
  let w1 := (Subscribe "orders" "s1" w0 []).1.2 in
  (runGoroutine w1 []).1.2.

(** The schedule of a consumer that takes a copy and nacks it, [n] times. *)
Fixpoint nackRounds (n : nat) : list choice :=
  match n with
  | 0 => []
  | S n => Push :: Nacks :: nackRounds n
  end.

(** The copy handed to the consumer in one round. *)
Definition freshCopy (m : Message) : Message :=
  SetContext (WithCancel false) (Copy m).

(** What one round of the loop logs: the copy [p] of [msg] is made, pushed
    and traced, then the verdict of the consumer is traced. *)
Definition roundEvents (msg : ptr) (m : Message) (s : subscriber)
    (verdict : string) (p : ptr) : list event :=
  [EvCopy msg p; EvSend (outputChannel s) p;
   EvTrace "Sent message to subscriber" (UUID m) (uuid s);
   EvTrace verdict (UUID m) (uuid s)].

(** The state in which [Publish] starts its deliveries. *)
Definition recorded (topic : string) (msgs : list ptr) (w : world) : world :=
  (record topic msgs w []).1.2.

Ltac longer H :=
  exfalso; apply (f_equal length) in H; simpl in H;
  rewrite ?length_app in H; simpl in H; lia.

(** The subscribers registered on a topic, in the order of the registry. *)
Definition subscribersOf (topic : string) (w : world) : list subscriber :=
  default [] (subscribers (engine w) !! topic).

Definition allocated (w : world) (msgs : list ptr) : Prop :=
  Forall (λ p, is_Some (heap w !! p)) msgs.



(** The state the goroutine leaves once the replay is over: the registry
    is locked, the retention log unlocked, the subscriber appended, the
    registry unlocked. *)
Definition registered (topic : string) (s : subscriber) (w : world) : world :=
  emit (EvUnlock subscribersLock)
    (emit (EvRegister topic s)
       (setEngine (appendSubscriber topic s (engine w))
          (emit (EvRUnlock messagesMutex)
             (emit (EvLock subscribersLock) w)))).

(** An engine with the message [m1] at pointer 0 and three subscribers
    [s1], [s2], [s3] registered in that order on topic [orders], with
    queues 0, 1 and 2. *)
Definition demo3 (g : GoChannel) : world :=
  let w1 := (Subscribe "orders" "s2" (demo g) []).1.2 in
  let w2 := (runGoroutine w1 []).1.2 in
  let w3 := (Subscribe "orders" "s3" w2 []).1.2 in
  (runGoroutine w3 []).1.2.

Definition keepsClosed (w w' : world) : Prop :=
  closed (engine w') = closed (engine w).

(** The state and the schedule a call of [Close] leaves. *)
Definition closeOnce (st : world * list choice) : world * list choice :=
  ((Close st.1 st.2).1.2, (Close st.1 st.2).2).

Definition onEngine (f : GoChannel → GoChannel) (w : world) : world :=
  setEngine (f (engine w)) w.

Definition lift {A} (f : GoChannel → GoChannel)
    (r : outcome A * world * list choice) : outcome A * world * list choice :=
  (r.1.1, onEngine f r.1.2, r.2).

(** [lifts f m]: changing the engine by [f] beforehand or afterwards makes
    no difference to what [m] does. *)
Definition lifts {A} (f : GoChannel → GoChannel) (m : M A) : Prop :=
  ∀ w o, m (onEngine f w) o = lift f (m w o).

Definition setSendTimeout (t : Z) (g : GoChannel) : GoChannel :=
  mkGoChannel t (outputChannelBuffer g) (subscribers g)
    (closed g) (closing g) (persistent g) (messages g).

(** A persistent engine on which [m1], at pointer 0, was published on
    topic [orders] before anybody subscribed. *)
Definition demoRetained (g : GoChannel) : world :=
  (Publish "orders" [0] (alloc (NewMessage "m1" "hello") (newWorld g)) []).1.2.


(** The schedule of a consumer that takes and acks each message handed to it. *)
Definition ackEach (msgs : list ptr) : list choice :=
  flat_map (λ _, [Push; Acks]) msgs.


(** [Close] changes no field of the engine but its two flags. *)
Definition keeps {A} (p : GoChannel → A) (w w' : world) : Prop :=
  p (engine w') = p (engine w).

(** ** Vocabulary of the further properties *)

(** The events of deliveries: copies, pushes and logger calls. *)
Definition delivery (e : event) : Prop :=
  match e with
  | EvCopy _ _ | EvSend _ _ | EvTrace _ _ _ => True
  | _ => False
  end.

(** The message instances pushed into queues by the events of a log. *)
Definition pushed (evs : list event) : list ptr :=
  omap (λ e, match e with EvSend _ p => Some p | _ => None end) evs.

(** What a copy keeps of a message: its identifier, metadata and payload. *)
Definition content (m : Message) : string * list (string * string) * string :=
  (UUID m, Metadata m, Payload m).

(** [copies src w w']: from [w] to [w'] the messages that existed keep
    their content, every new message instance has the content of a message
    of [src], and the instances pushed into queues in between are new
    ones, each pushed once, in the order they were made. *)
Definition copies (src : list ptr) (w w' : world) : Prop :=
  ∃ cs evs,
    content <$> heap w' = (content <$> heap w) ++ cs ∧
    Forall (λ c, ∃ q, q ∈ src ∧ (content <$> heap w') !! q = Some c) cs ∧
    log w' = log w ++ evs ∧
    pushed evs `sublist_of` seq (length (heap w)) (length cs).

(** The queues of a list of subscribers. *)
Definition channels (subs : list subscriber) : list chan :=
  outputChannel <$> subs.

(** An engine with [m1] at pointer 0, a subscriber [s1] on topic [orders]
    with queue 0 and a subscriber [s2] on topic [invoices] with queue 1. *)
Definition demoTopics (g : GoChannel) : world :=
  let w1 := (Subscribe "invoices" "s2" (demo g) []).1.2 in
  (runGoroutine w1 []).1.2.

(** The copy of [m] once the consumer acked it and the send returned. *)
Definition ackedCopy (m : Message) : Message :=
  cancelCtx (setAck ack (freshCopy m)).

(** The schedule of a consumer, or of several, taking and acking [n] copies. *)
Fixpoint acks (n : nat) : list choice :=
  match n with
  | 0 => []
  | S n => Push :: Acks :: acks n
  end.

(** The store of channels after the instance [p] went into queue [c]. *)
Definition give (p : ptr) (c : chan) (cs : list channel) : list channel :=
  match cs !! c with
  | Some ch => <[c := mkChannel (capacity ch) false (sent ch ++ [p])]> cs
  | None => cs
  end.

(** The store of channels after the subscribers of [subs] were handed, in
    turn, the instances [p], [p+1], ... *)
Fixpoint handOut (p : ptr) (subs : list subscriber) (cs : list channel)
    : list channel :=
  match subs with
  | [] => cs
  | s :: rest => handOut (S p) rest (give p (outputChannel s) cs)
  end.

(** The same for one round of [handOut] per message of a list of [k]. *)
Fixpoint handOutAll (p : ptr) (subs : list subscriber) (k : nat)
    (cs : list channel) : list channel :=
  match k with
  | 0 => cs
  | S k => handOutAll (p + length subs) subs k (handOut p subs cs)
  end.

(** All the queues of [subs] exist and are open. *)
Definition allOpen (cs : list channel) (subs : list subscriber) : Prop :=
  Forall (λ s, ∃ ch, cs !! outputChannel s = Some ch ∧ chClosed ch = false) subs.


(** The scheduler starting the [i]-th of the goroutines that were started
    by [Subscribe] and have not run yet; [runGoroutine] is the case of the
    oldest one. *)
Definition runGoroutineAt (i : nat) : M unit := λ w o,
  match spawned w !! i with
  | None => (Returned tt, w, o)
  | Some (topic, s) => subscribeRoutine topic s (setSpawned (delete i (spawned w)) w) o
  end.

(** What a program does with an engine: it makes messages, calls the
    three methods, and its scheduler runs the goroutines of [Subscribe]. *)
Inductive call :=
| DoNewMessage (u payload : string)
| DoPublish (topic : string) (msgs : list ptr)
| DoSubscribe (topic u : string)
| DoGoroutine (i : nat)
| DoClose.

(** The state a call leaves under a schedule, however it ends: returned,
    panicked, or still waiting. *)
Definition perform (c : call) (o : list choice) (w : world) : world :=
  match c with
  | DoNewMessage u payload => alloc (NewMessage u payload) w
  | DoPublish topic msgs => (Publish topic msgs w o).1.2
  | DoSubscribe topic u => (Subscribe topic u w o).1.2
  | DoGoroutine i => (runGoroutineAt i w o).1.2
  | DoClose => (Close w o).1.2
  end.

Definition history (cs : list (call * list choice)) (w : world) : world :=
  foldl (λ w c, perform c.1 c.2 w) w cs.

(** The states a program can bring an engine to, from either constructor. *)
Definition reachable (w : world) : Prop :=
  ∃ (p : bool) (b t : Z) (cs : list (call * list choice)),
    w = history cs (newWorld (if p then NewPersistentGoChannel b t
                              else NewGoChannel b t)).

(** The queues of the registered subscribers of all topics, and all the
    queues the engine knows: these and the ones of the subscriptions
    whose goroutine has not run yet. *)
Definition registeredQueues (w : world) : list chan :=
  channels (allSubscribers (engine w)).

Definition queues (w : world) : list chan :=
  registeredQueues w ++ channels (snd <$> spawned w).

Definition flags (w : world) : list bool := chClosed <$> chans w.

(** Every queue the engine knows is allocated and belongs to one
    subscriber only; until [Close] is called, [closing] and all the
    queues are open. *)
Definition wellFormed (w : world) : Prop :=
  NoDup (queues w) ∧
  Forall (λ c, c < length (flags w)) (queues w) ∧
  (if closed (engine w) then True
   else closing (engine w) = false ∧ Forall (λ b, b = false) (flags w)).

(** A call that does not panic, in the states where [P] holds. *)
Definition safe {A} (P : world → Prop) (m : M A) : Prop :=
  ∀ w o p, P w → (m w o).1.1 ≠ Panicked p.

(** The messages are allocated and no queue is closed. *)
Definition sound (msgs : list ptr) (w : world) : Prop :=
  allocated w msgs ∧ Forall (λ b, b = false) (flags w).

(** [pending n ds h]: every message of [h] from pointer [n] on has a
    cancelled context, or a live one whose [cancelCtx] is among the
    deferred calls [ds]. *)
Definition pending (n : nat) (ds : list ptr) (h : list Message) : Prop :=
  ∀ p m, n ≤ p → h !! p = Some m →
         ctx m = WithCancel true ∨ (p ∈ ds ∧ ctx m = WithCancel false).

(** What has become of the contexts of the copies made from pointer [n]
    on when a call ends: all cancelled once it returned or panicked; the
    copy it waits on still live while it is blocked. *)
Definition ended {A} (n : nat) (r : outcome A * world * list choice) : Prop :=
  match r.1.1 with
  | Returned _ | Panicked _ =>
      Forall (λ m, ctx m = WithCancel true) (drop n (heap r.1.2))
  | Blocked =>
      ∃ m, last (heap r.1.2) = Some m ∧ ctx m = WithCancel false ∧
           n < length (heap r.1.2)
  | Infeasible => True
  end.

Definition sameMutex (a b : mutex) : bool :=
  match a, b with
  | subscribersLock, subscribersLock | messagesMutex, messagesMutex => true
  | _, _ => false
  end.

(** What an event adds to the number of holders of the mutex [mu]:
    of its write lock when [exclusive], of its read lock otherwise. *)
Definition lockChange (mu : mutex) (exclusive : bool) (e : event) : Z :=
  match e with
  | EvLock m => if sameMutex m mu && exclusive then 1 else 0
  | EvUnlock m => if sameMutex m mu && exclusive then -1 else 0
  | EvRLock m => if sameMutex m mu && negb exclusive then 1 else 0
  | EvRUnlock m => if sameMutex m mu && negb exclusive then -1 else 0
  | _ => 0
  end%Z.

(** The locks taken and not released by the events [evs]. *)
Definition held (mu : mutex) (exclusive : bool) (evs : list event) : Z :=
  foldr (λ e n, lockChange mu exclusive e + n)%Z 0%Z evs.

(** One read lock of the mutex [m], and nothing else. *)
Definition readLockOf (m mu : mutex) (exclusive : bool) : Z :=
  if sameMutex mu m && negb exclusive then 1%Z else 0%Z.


(** The acknowledgements a log records: the message and the subscriber
    named by each [Message acked] call of the logger. *)
Definition ackedBy (evs : list event) : list (string * string) :=
  omap (λ e, match e with
             | EvTrace text mu su =>
                 if String.eqb text "Message acked" then Some (mu, su) else None
             | _ => None
             end) evs.

(** * Properties *)

(** ** Generalities *)

(** The loop consumes the schedule two choices at a time. *)
Lemma schedule_ind (P : list choice → Prop) :
  P [] → (∀ c, P [c]) → (∀ c1 c2 o, P o → P (c1 :: c2 :: o)) → ∀ o, P o.
Proof.
  intros Hnil Hone Hstep.
  assert (Hboth : ∀ o, P o ∧ ∀ c, P (c :: o)).
  { induction o as [|c o [IH1 IH2]]; split; auto. }
  intros o. apply Hboth.
Qed.

(** The delivery loop leaves the engine's own fields alone. *)
Lemma sendLoop_engine msg s t o :
  ∀ ds w, engine (sendLoop msg s t ds o w).1.2 = engine w.
Proof.
  induction o as [|c|c1 c2 o IH] using schedule_ind; intros ds w;
    loop_cases; try reflexivity.
  rewrite IH. reflexivity.
Qed.

Lemma sendLoop_spawned msg s t o :
  ∀ ds w, spawned (sendLoop msg s t ds o w).1.2 = spawned w.
Proof.
  induction o as [|c|c1 c2 o IH] using schedule_ind; intros ds w;
    loop_cases; try reflexivity.
  rewrite IH. reflexivity.
Qed.

Lemma chanGrows_refl ch : chanGrows ch ch.
Proof. by repeat split. Qed.

Lemma chanGrows_trans ch1 ch2 ch3 :
  chanGrows ch1 ch2 → chanGrows ch2 ch3 → chanGrows ch1 ch3.
Proof.
  intros (?&?&?) (?&?&?). repeat split; try congruence. by etrans.
Qed.

Lemma chansGrow_refl cs : Forall2 chanGrows cs cs.
Proof. induction cs; constructor; auto using chanGrows_refl. Qed.

Lemma chansGrow_trans cs1 cs2 cs3 :
  Forall2 chanGrows cs1 cs2 → Forall2 chanGrows cs2 cs3 → Forall2 chanGrows cs1 cs3.
Proof.
  intros H. revert cs3. induction H; intros cs3 H3; inversion H3; subst;
    constructor; eauto using chanGrows_trans.
Qed.

Lemma chansGrow_push cs c ch p :
  cs !! c = Some ch →
  Forall2 chanGrows cs (<[c := mkChannel (capacity ch) (chClosed ch) (sent ch ++ [p])]> cs).
Proof.
  intros Hc. rewrite <- (list_insert_id cs c ch Hc) at 1.
  apply Forall2_insert; [apply chansGrow_refl|].
  repeat split; simpl; auto. by apply prefix_app_r.
Qed.

Lemma sendLoop_chans msg s t o :
  ∀ ds w, Forall2 chanGrows (chans w) (chans (sendLoop msg s t ds o w).1.2).
Proof.
  induction o as [|c|c1 c2 o IH] using schedule_ind; intros ds w;
    loop_cases; try apply chansGrow_refl; try (by apply chansGrow_push).
  eapply chansGrow_trans; [|apply IH]. simpl. by apply chansGrow_push.
Qed.

(** Messages that existed before a call are not touched by it: only the
    copies it makes are signalled on and cancelled. *)
Lemma take_cancel base ds (h : list Message) :
  Forall (λ p, base ≤ p) ds →
  take base (foldr (λ p h, alter cancelCtx p h) h ds) = take base h.
Proof.
  induction 1 as [|p ds Hp _ IH]; simpl; [done|].
  rewrite take_alter_ge by done. exact IH.
Qed.

Lemma sendLoop_heap base msg s t o :
  ∀ ds w, base ≤ length (heap w) → Forall (λ p, base ≤ p) ds →
    take base (heap (sendLoop msg s t ds o w).1.2) = take base (heap w).
Proof.
  assert (Hgrow : ∀ (h : list Message) x, base ≤ length h →
            take base (h ++ [x]) = take base h).
  { intros h x Hh. by rewrite take_app_le. }
  assert (Hds : ∀ (h : list Message) ds x, base ≤ length h →
            Forall (λ p, base ≤ p) ds →
            take base (foldr (λ p h, alter cancelCtx p h) (h ++ [x]) (length h :: ds))
            = take base h).
  { intros h ds x Hh Hall. rewrite take_cancel by (constructor; auto).
    by apply Hgrow. }
  induction o as [|c|c1 c2 o IH] using schedule_ind; intros ds w Hb Hall;
    loop_cases; auto using take_cancel;
    try (rewrite take_cancel by (constructor; auto));
    try (rewrite take_alter_ge by done); auto.
  - rewrite take_cancel, take_alter_ge by done. auto.
  - rewrite IH; simpl.
    + rewrite take_alter_ge by done. auto.
    + rewrite length_alter, length_app. lia.
    + constructor; auto.
Qed.

Lemma sendLoop_log msg s t o :
  ∀ ds w, ∃ evs, log (sendLoop msg s t ds o w).1.2 = log w ++ evs ∧
                 Forall (deliveryEvent (uuid s)) evs.
Proof.
  induction o as [|c|c1 c2 o IH] using schedule_ind; intros ds w;
    loop_cases;
    try (exists []; split; [by rewrite app_nil_r | constructor]);
    try log_done.
  match goal with
  | |- context [sendLoop msg s t ?ds' o ?w'] =>
      destruct (IH ds' w') as (evs & -> & Hevs)
  end.
  simpl. rewrite <- !app_assoc. simpl. eexists. split; [reflexivity|].
  repeat constructor; done.
Qed.

(** With the sentinel as timeout no send returns an error. *)
Lemma sendLoop_noTimeout msg s o :
  ∀ ds w e, (sendLoop msg s noTimeout ds o w).1.1 ≠ Returned (Some e).
Proof.
  induction o as [|c|c1 c2 o IH] using schedule_ind; intros ds w e;
    loop_cases; try discriminate.
  apply IH.
Qed.

(** ** What one call may change *)

Lemma extends_refl w : extends w w.
Proof. split; auto using chansGrow_refl. Qed.

Lemma extends_trans w1 w2 w3 : extends w1 w2 → extends w2 w3 → extends w1 w3.
Proof.
  intros [] []. split; try congruence; try (by etrans).
  eauto using chansGrow_trans.
Qed.

Lemma extends_emit e w : extends w (emit e w).
Proof. split; simpl; auto using chansGrow_refl. by apply prefix_app_r. Qed.

Lemma sendMessageToSubscriber_extends msg s t w o :
  extends w (sendMessageToSubscriber msg s t w o).1.2.
Proof.
  unfold sendMessageToSubscriber. split.
  - apply sendLoop_engine.
  - apply sendLoop_spawned.
  - exists (drop (length (heap w)) (heap (sendLoop msg s t [] o w).1.2)).
    rewrite <- (take_drop (length (heap w))) at 1.
    rewrite (sendLoop_heap (length (heap w))) by auto.
    by rewrite firstn_all.
  - apply sendLoop_chans.
  - destruct (sendLoop_log msg s t o [] w) as (evs & -> & _).
    by apply prefix_app_r.
Qed.

Section Steady.
Context (R : world → world → Prop).
Hypothesis R_refl : ∀ w, R w w.
Hypothesis R_trans : ∀ w1 w2 w3, R w1 w2 → R w2 w3 → R w1 w3.

Lemma steady_ret {A} (a : A) : steady R (ret a).
Proof. intros w o. apply R_refl. Qed.

Lemma steady_gets {A} (f : world → A) : steady R (gets f).
Proof. intros w o. apply R_refl. Qed.

Lemma steady_throw {A} p : steady R (@throw A p).
Proof. intros w o. apply R_refl. Qed.

Lemma steady_modify f : (∀ w, R w (f w)) → steady R (modify f).
Proof. intros Hf w o. apply Hf. Qed.

Lemma steady_tell e : (∀ w, R w (emit e w)) → steady R (tell e).
Proof. intros Hf w o. apply Hf. Qed.

Lemma steady_bind {A B} (m : M A) (k : A → M B) :
  steady R m → (∀ a, steady R (k a)) → steady R (bind m k).
Proof.
  intros Hm Hk w o. unfold bind. specialize (Hm w o).
  destruct (m w o) as [[[a| | |] w'] o']; simpl in *; auto.
  eapply R_trans; [exact Hm|]. apply Hk.
Qed.

Lemma steady_deferred {A} f (body : M A) :
  (∀ w, R w (f w)) → steady R body → steady R (deferred f body).
Proof.
  intros Hf Hm w o. unfold deferred. specialize (Hm w o).
  destruct (body w o) as [[[a| | |] w'] o']; simpl in *; eauto.
Qed.
End Steady.

Lemma serve_extends message subs : steady extends (serve message subs).
Proof.
  induction subs as [|s subs IH]; simpl.
  - apply steady_ret, extends_refl.
  - apply steady_bind; [apply extends_trans|apply steady_gets, extends_refl|].
    intros t. apply steady_bind; [apply extends_trans| |].
    + intros w o. apply sendMessageToSubscriber_extends.
    + intros [e|]; [apply steady_ret, extends_refl | apply IH].
Qed.

Lemma sendMessage_extends topic message : steady extends (sendMessage topic message).
Proof.
  unfold sendMessage.
  apply steady_bind; [apply extends_trans|apply steady_tell, extends_emit|].
  intros _. apply steady_deferred; [apply extends_trans|apply extends_emit|].
  apply steady_bind; [apply extends_trans|apply steady_gets, extends_refl|].
  intros [subs|]; [apply serve_extends | apply steady_ret, extends_refl].
Qed.

Lemma deliver_extends topic msgs : steady extends (deliver topic msgs).
Proof.
  induction msgs as [|msg msgs IH]; simpl.
  - apply steady_ret, extends_refl.
  - apply steady_bind; [apply extends_trans|apply sendMessage_extends|].
    intros [e|]; [apply steady_ret, extends_refl | apply IH].
Qed.

Lemma replay_extends msgs s : steady extends (replay msgs s).
Proof.
  induction msgs as [|msg msgs IH]; simpl.
  - apply steady_ret, extends_refl.
  - apply steady_bind; [apply extends_trans| |].
    + intros w o. apply sendMessageToSubscriber_extends.
    + intros [e|]; [apply steady_throw, extends_refl | apply IH].
Qed.

(** ** Calls that return no error *)

Lemma noError_bind {A} (m : M A) (k : A → M (option error)) w o :
  (∀ a w' o', m w o = (Returned a, w', o') → noError (k a w' o').1.1) →
  noError (bind m k w o).1.1.
Proof.
  intros Hk. unfold bind.
  destruct (m w o) as [[[a| | |] w'] o']; simpl in *; try (intros e; discriminate).
  by apply Hk.
Qed.

Lemma noError_deferred f (body : M (option error)) w o :
  noError (body w o).1.1 → noError (deferred f body w o).1.1.
Proof.
  unfold deferred. destruct (body w o) as [[[a| | |] w'] o']; simpl; auto.
Qed.

Lemma timeoutDisabled_extends w w' :
  extends w w' → timeoutDisabled w → timeoutDisabled w'.
Proof. intros [He _ _ _ _]. unfold timeoutDisabled. by rewrite He. Qed.

Lemma serve_noTimeout message subs w o :
  timeoutDisabled w → noError (serve message subs w o).1.1.
Proof.
  revert w o. induction subs as [|s subs IH]; intros w o Hw; simpl.
  - intros e. discriminate.
  - unfold bind at 1. simpl. rewrite Hw.
    apply noError_bind. intros [e|] w1 o1 Hrun.
    + exfalso. apply (sendLoop_noTimeout message s o [] w e).
      unfold sendMessageToSubscriber in Hrun. by rewrite Hrun.
    + apply IH. eapply timeoutDisabled_extends; [|exact Hw].
      replace w1 with (sendMessageToSubscriber message s noTimeout w o).1.2
        by (by rewrite Hrun).
      apply sendMessageToSubscriber_extends.
Qed.

Lemma sendMessage_noTimeout topic message w o :
  timeoutDisabled w → noError (sendMessage topic message w o).1.1.
Proof.
  intros Hw. unfold sendMessage. unfold bind at 1. simpl.
  apply noError_deferred. unfold bind. simpl.
  destruct (subscribers (engine w) !! topic) as [subs|].
  - by apply serve_noTimeout.
  - intros e. discriminate.
Qed.

Lemma deliver_noTimeout topic msgs w o :
  timeoutDisabled w → noError (deliver topic msgs w o).1.1.
Proof.
  revert w o. induction msgs as [|msg msgs IH]; intros w o Hw; simpl.
  - intros e. discriminate.
  - apply noError_bind. intros [e|] w1 o1 Hrun.
    + exfalso. apply (sendMessage_noTimeout topic msg w o Hw e). by rewrite Hrun.
    + apply IH. eapply timeoutDisabled_extends; [|exact Hw].
      replace w1 with (sendMessage topic msg w o).1.2 by (by rewrite Hrun).
      apply sendMessage_extends.
Qed.

(** [record] always returns, and changes the retention log only. *)
Lemma record_run topic msgs w o :
  ∃ w', record topic msgs w o = (Returned tt, w', o) ∧
        heap w' = heap w ∧ chans w' = chans w ∧ spawned w' = spawned w ∧
        sendTimeout (engine w') = sendTimeout (engine w) ∧
        outputChannelBuffer (engine w') = outputChannelBuffer (engine w) ∧
        subscribers (engine w') = subscribers (engine w) ∧
        closed (engine w') = closed (engine w) ∧
        closing (engine w') = closing (engine w) ∧
        persistent (engine w') = persistent (engine w) ∧
        (persistent (engine w) = true →
           messages (engine w') !! topic
           = Some (default [] (messages (engine w) !! topic) ++ msgs)) ∧
        (persistent (engine w) = false → w' = w).
Proof.
  unfold record, bind, gets, tell, modify. simpl.
  destruct (persistent (engine w)) eqn:Hp; simpl.
  - eexists. split; [reflexivity|]. simpl. repeat split; auto; try discriminate.
    intros _. rewrite lookup_insert_eq. f_equal.
    destruct (messages (engine w) !! topic) eqn:Hm; simpl.
    + by rewrite Hm.
    + by rewrite lookup_insert_eq.
  - exists w. repeat split; auto. discriminate.
Qed.

Lemma Publish_noTimeout topic msgs w o :
  timeoutDisabled w → noError (Publish topic msgs w o).1.1.
Proof.
  intros Hw. unfold Publish, bind.
  destruct (record_run topic msgs w o) as (w' & -> & _ & _ & _ & Ht & _).
  apply deliver_noTimeout. unfold timeoutDisabled in *. congruence.
Qed.

(** ** The sentinel timeout *)

(** C3, as stated, fails: a negative duration other than the sentinel
    arms the timer, and the publish returns the timeout error. *)
Lemma negative_timeout_fires :
  (sendTimeout (engine (demo (NewGoChannel 1 (-2)))) < 0)%Z ∧
  (Publish "orders" [0] (demo (NewGoChannel 1 (-2))) [TimerFires]).1.1
  = Returned (Some (SendTimeouted "m1" (-2))).
Proof. split; reflexivity. Qed.

(** C3, amended: on an engine whose send timeout is the sentinel
    [noTimeout] (-1) the timer is disabled: under no schedule does a send
    to a subscriber, or a publish, return a timeout error, and a schedule
    in which the timer fires cannot happen.  A send with any other
    duration, negative or not, has an armed timer: when it fires, the send
    returns the timeout error. *)
Theorem sentinel_disables_timeout (w : world)
    (Hs : sendTimeout (engine w) = noTimeout) :
  (∀ msg s o e,
     (sendMessageToSubscriber msg s (sendTimeout (engine w)) w o).1.1
     ≠ Returned (Some e)) ∧
  (∀ topic msgs o e, (Publish topic msgs w o).1.1 ≠ Returned (Some e)) ∧
  (∀ msg m s o, heap w !! msg = Some m →
     (sendMessageToSubscriber msg s (sendTimeout (engine w)) w (TimerFires :: o)).1.1
     = Infeasible) ∧
  (∀ d msg m s o, d ≠ noTimeout → heap w !! msg = Some m →
     (sendMessageToSubscriber msg s d w (TimerFires :: o)).1.1
     = Returned (Some (SendTimeouted (UUID m) d))).
Proof.
  split; [|split; [|split]].
  - intros msg s o e. rewrite Hs. apply sendLoop_noTimeout.
  - intros topic msgs o. by apply Publish_noTimeout.
  - intros msg m s o Hm. rewrite Hs. unfold sendMessageToSubscriber. simpl.
    by rewrite Hm.
  - intros d msg m s o Hd Hm. unfold sendMessageToSubscriber. simpl.
    rewrite Hm. unfold timeoutChan. apply Z.eqb_neq in Hd. by rewrite Hd.
Qed.

Lemma sentinel_disables_timeout_witness :
  sendTimeout (engine (demo (NewGoChannel 1 (-1)))) = noTimeout ∧
  (Publish "orders" [0] (demo (NewGoChannel 1 (-1))) [TimerFires]).1.1
  ≠ Returned (Some (SendTimeouted "m1" (-1))).
Proof.
  split; [reflexivity|].
  apply (sentinel_disables_timeout (demo (NewGoChannel 1 (-1)))). reflexivity.
Defined.

(** ** Nack and redelivery *)

Lemma alter_last {A} (f : A → A) (h : list A) (x : A) :
  alter f (length h) (h ++ [x]) = h ++ [f x].
Proof.
  replace (length h) with (length h + 0) by lia. by rewrite alter_app_r.
Qed.

Lemma alter_fresh {A} (f : A → A) (l h tail : list A) :
  foldr (λ p h, alter f p h) (h ++ l ++ tail) (rev (seq (length h) (length l)))
  = h ++ (f <$> l) ++ tail.
Proof.
  revert tail. induction l as [|x l IH] using rev_ind; intros tail; [done|].
  rewrite length_app. simpl. rewrite Nat.add_1_r, seq_S, rev_app_distr. simpl.
  rewrite <- (app_assoc l [x] tail). simpl. rewrite IH.
  rewrite alter_app_r.
  replace (length l) with (length (f <$> l) + 0) by (rewrite length_fmap; lia).
  rewrite alter_app_r. simpl. rewrite fmap_app. simpl.
  by rewrite <- (app_assoc (f <$> l)).
Qed.

Lemma world_eq h c e sp l h' c' l' :
  h = h' → c = c' → l = l' → mkWorld h c e sp l = mkWorld h' c' e sp l'.
Proof. by intros -> -> ->. Qed.

Lemma sendLoop_rounds msg m s t rest (N : nat) :
  ∀ ds w ch,
    heap w !! msg = Some m →
    chans w !! outputChannel s = Some ch → chClosed ch = false →
    sendLoop msg s t ds (nackRounds N ++ Push :: Acks :: rest) w
    = (Returned None,
       mkWorld
         (foldr (λ p h, alter cancelCtx p h)
            (heap w ++ replicate N (setAck nack (freshCopy m))
                    ++ [setAck ack (freshCopy m)])
            (rev (seq (length (heap w)) (S N)) ++ ds))
         (<[outputChannel s :=
              mkChannel (capacity ch) false
                (sent ch ++ seq (length (heap w)) (S N))]> (chans w))
         (engine w) (spawned w)
         (log w
          ++ flat_map (roundEvents msg m s "Nack received, resending message")
               (seq (length (heap w)) N)
          ++ roundEvents msg m s "Message acked" (length (heap w) + N)),
       rest).
Proof.
  induction N as [|N IH]; intros ds w ch Hm Hc Hopen.
  - simpl. rewrite Hm. simpl. rewrite Hc, Hopen. simpl.
    unfold runDeferred, setHeap. simpl. rewrite ?Hopen. f_equal. f_equal.
    rewrite Nat.add_0_r. apply world_eq.
    + by rewrite alter_last.
    + done.
    + by rewrite <- !app_assoc.
  - simpl nackRounds. simpl app. cbn [sendLoop]. rewrite Hm. simpl.
    rewrite Hc, Hopen.
    erewrite IH; cycle 1.
    + simpl. rewrite list_lookup_alter_ne by (apply lookup_lt_Some in Hm; lia).
      by apply lookup_app_l_Some.
    + simpl. apply list_lookup_insert_eq. by apply lookup_lt_Some in Hc.
    + done.
    + simpl. rewrite ?Hopen. f_equal. f_equal.
      rewrite alter_last, length_app. simpl. rewrite Nat.add_1_r.
      apply world_eq.
      * rewrite <- !app_assoc. simpl. done.
      * rewrite list_insert_insert_eq. by rewrite <- !app_assoc.
      * rewrite <- !app_assoc. simpl. by rewrite Nat.add_succ_r.
Qed.

Lemma sendLoop_waits msg m s t (N : nat) :
  ∀ o ds w ch,
    heap w !! msg = Some m →
    chans w !! outputChannel s = Some ch → chClosed ch = false →
    o `prefix_of` nackRounds N ++ [Push; Acks] →
    o ≠ nackRounds N ++ [Push; Acks] →
    (sendLoop msg s t ds o w).1.1 = Blocked.
Proof.
  induction N as [|N IH]; intros o ds w ch Hm Hc Hopen Hpre Hne;
    simpl in Hpre, Hne.
  - destruct o as [|c1 [|c2 o]].
    + simpl. by rewrite Hm.
    + apply prefix_cons_inv_1 in Hpre as ->. simpl. rewrite Hm. simpl.
      by rewrite Hc, Hopen.
    + pose proof (prefix_cons_inv_1 _ _ _ _ Hpre) as ->.
      apply prefix_cons_inv_2 in Hpre.
      pose proof (prefix_cons_inv_1 _ _ _ _ Hpre) as ->.
      apply prefix_cons_inv_2, prefix_nil_inv in Hpre as ->. done.
  - destruct o as [|c1 [|c2 o]].
    + simpl. by rewrite Hm.
    + apply prefix_cons_inv_1 in Hpre as ->. simpl. rewrite Hm. simpl.
      by rewrite Hc, Hopen.
    + pose proof (prefix_cons_inv_1 _ _ _ _ Hpre) as ->.
      apply prefix_cons_inv_2 in Hpre.
      pose proof (prefix_cons_inv_1 _ _ _ _ Hpre) as ->.
      apply prefix_cons_inv_2 in Hpre.
      cbn [sendLoop]. rewrite Hm. simpl. rewrite Hc, Hopen.
      apply (IH _ _ _ (mkChannel (capacity ch) (chClosed ch)
                         (sent ch ++ [length (heap w)]))).
      * simpl. rewrite list_lookup_alter_ne by (apply lookup_lt_Some in Hm; lia).
        by apply lookup_app_l_Some.
      * simpl. apply list_lookup_insert_eq. by apply lookup_lt_Some in Hc.
      * done.
      * done.
      * congruence.
Qed.

Lemma record_recorded topic msgs w o :
  record topic msgs w o = (Returned tt, recorded topic msgs w, o).
Proof.
  unfold recorded, record, bind, gets, tell, modify. simpl.
  by destruct (persistent (engine w)).
Qed.

Lemma Publish_deliver topic msgs w o :
  Publish topic msgs w o = deliver topic msgs (recorded topic msgs w) o.
Proof. unfold Publish, bind. by rewrite record_recorded. Qed.

(** A publish of one message on a topic with one subscriber is the send to
    that subscriber, under the read lock of the registry. *)
Lemma Publish_single topic msg s w o :
  subscribers (engine w) !! topic = Some [s] →
  Publish topic [msg] w o =
  match sendMessageToSubscriber msg s (sendTimeout (engine w))
          (emit (EvRLock subscribersLock) (recorded topic [msg] w)) o with
  | (Returned a, w', o') => (Returned a, emit (EvRUnlock subscribersLock) w', o')
  | (Panicked p, w', o') => (Panicked p, emit (EvRUnlock subscribersLock) w', o')
  | r => r
  end.
Proof.
  intros Hs. rewrite Publish_deliver.
  destruct (record_run topic [msg] w o) as (w' & Hrun & _ & _ & _ & Ht & _ & Hsub & _).
  rewrite record_recorded in Hrun. injection Hrun as <-.
  unfold deliver, sendMessage, bind, tell, deferred, gets. simpl.
  rewrite Hsub, Hs. simpl. unfold bind, gets. simpl. rewrite Ht.
  destruct (sendMessageToSubscriber msg s (sendTimeout (engine w))
              (emit (EvRLock subscribersLock) (recorded topic [msg] w)) o)
    as [[[[e|]| | |] w1] o1]; reflexivity.
Qed.

Lemma recorded_frame topic msgs w :
  heap (recorded topic msgs w) = heap w ∧
  chans (recorded topic msgs w) = chans w ∧
  spawned (recorded topic msgs w) = spawned w ∧
  sendTimeout (engine (recorded topic msgs w)) = sendTimeout (engine w) ∧
  subscribers (engine (recorded topic msgs w)) = subscribers (engine w) ∧
  closed (engine (recorded topic msgs w)) = closed (engine w) ∧
  closing (engine (recorded topic msgs w)) = closing (engine w) ∧
  persistent (engine (recorded topic msgs w)) = persistent (engine w).
Proof.
  destruct (record_run topic msgs w []) as (w' & Hrun & H).
  rewrite record_recorded in Hrun. injection Hrun as <-. tauto.
Qed.

Lemma sendMessageToSubscriber_rounds msg m s t rest (N : nat) w ch :
  heap w !! msg = Some m →
  chans w !! outputChannel s = Some ch → chClosed ch = false →
  sendMessageToSubscriber msg s t w ((nackRounds N ++ [Push; Acks]) ++ rest)
  = (Returned None,
     mkWorld
       (heap w ++ replicate N (cancelCtx (setAck nack (freshCopy m)))
               ++ [cancelCtx (setAck ack (freshCopy m))])
       (<[outputChannel s :=
            mkChannel (capacity ch) false
              (sent ch ++ seq (length (heap w)) (S N))]> (chans w))
       (engine w) (spawned w)
       (log w
        ++ flat_map (roundEvents msg m s "Nack received, resending message")
             (seq (length (heap w)) N)
        ++ roundEvents msg m s "Message acked" (length (heap w) + N)),
     rest).
Proof.
  intros Hm Hc Hopen. unfold sendMessageToSubscriber.
  rewrite <- app_assoc. simpl.
  rewrite (sendLoop_rounds msg m s t rest N [] w ch Hm Hc Hopen).
  f_equal. f_equal. apply world_eq; try done.
  rewrite app_nil_r.
  pose proof (alter_fresh cancelCtx
                (replicate N (setAck nack (freshCopy m)) ++ [setAck ack (freshCopy m)])
                (heap w) []) as Hf.
  rewrite !app_nil_r, length_app, length_replicate in Hf. simpl in Hf.
  rewrite Nat.add_1_r in Hf. rewrite Hf.
  by rewrite fmap_app, fmap_replicate.
Qed.

(** C2: a subscriber that nacks the copy it is handed [N] times and acks
    the next one is sent [N+1] copies: each is a fresh object made from
    the original message [msg] (never from a failed copy), pending when it
    is made and with its own acknowledgment state, and pushed into the
    subscriber's queue in turn; the send returns nil.  The enclosing
    publish returns nil once the final ack is in, and while any part of
    that schedule is still to come it has not returned. *)
Theorem nack_then_ack_redelivers
    (w : world) (topic : string) (msg : ptr) (m : Message) (s : subscriber)
    (ch : channel) (N : nat) (rest : list choice)
    (Hm : heap w !! msg = Some m)
    (Hs : subscribers (engine w) !! topic = Some [s])
    (Hc : chans w !! outputChannel s = Some ch)
    (Ho : chClosed ch = false) :
  let schedule := nackRounds N ++ [Push; Acks] in
  let p0 := length (heap w) in
  ackSent (freshCopy m) = noAckSent ∧
  (∀ t, sendMessageToSubscriber msg s t w (schedule ++ rest)
        = (Returned None,
           mkWorld
             (heap w ++ replicate N (cancelCtx (setAck nack (freshCopy m)))
                     ++ [cancelCtx (setAck ack (freshCopy m))])
             (<[outputChannel s :=
                  mkChannel (capacity ch) false (sent ch ++ seq p0 (S N))]> (chans w))
             (engine w) (spawned w)
             (log w
              ++ flat_map (roundEvents msg m s "Nack received, resending message")
                   (seq p0 N)
              ++ roundEvents msg m s "Message acked" (p0 + N)),
           rest)) ∧
  (Publish topic [msg] w (schedule ++ rest)).1.1 = Returned None ∧
  (Publish topic [msg] w (schedule ++ rest)).2 = rest ∧
  chans (Publish topic [msg] w (schedule ++ rest)).1.2 !! outputChannel s
  = Some (mkChannel (capacity ch) false (sent ch ++ seq p0 (S N))) ∧
  (∀ o, o `prefix_of` schedule → o ≠ schedule →
        (Publish topic [msg] w o).1.1 = Blocked).
Proof.
  intros schedule p0. subst schedule p0.
  destruct (recorded_frame topic [msg] w) as (Hh & Hch & _).
  assert (Hm' : heap (emit (EvRLock subscribersLock) (recorded topic [msg] w)) !! msg
                = Some m) by (simpl; by rewrite Hh).
  assert (Hc' : chans (emit (EvRLock subscribersLock) (recorded topic [msg] w))
                  !! outputChannel s = Some ch) by (simpl; by rewrite Hch).
  split; [reflexivity|]. split; [|split; [|split; [|split]]].
  - intros t. by apply sendMessageToSubscriber_rounds.
  - rewrite (Publish_single _ _ _ _ _ Hs).
    by rewrite (sendMessageToSubscriber_rounds _ _ _ _ _ _ _ _ Hm' Hc' Ho).
  - rewrite (Publish_single _ _ _ _ _ Hs).
    by rewrite (sendMessageToSubscriber_rounds _ _ _ _ _ _ _ _ Hm' Hc' Ho).
  - rewrite (Publish_single _ _ _ _ _ Hs).
    rewrite (sendMessageToSubscriber_rounds _ _ _ _ _ _ _ _ Hm' Hc' Ho).
    simpl. rewrite Hh, Hch. apply list_lookup_insert_eq.
    by apply lookup_lt_Some in Hc.
  - intros o Hpre Hne. rewrite (Publish_single _ _ _ _ _ Hs).
    pose proof (sendLoop_waits msg m s (sendTimeout (engine w)) N o [] _ ch
                  Hm' Hc' Ho Hpre Hne) as Hw.
    unfold sendMessageToSubscriber.
    destruct (sendLoop msg s (sendTimeout (engine w)) [] o
                (emit (EvRLock subscribersLock) (recorded topic [msg] w)))
      as [[[a| | |] w1] o1]; simpl in Hw; try discriminate. done.
Qed.

Lemma nack_then_ack_redelivers_witness :
  heap (demo (NewGoChannel 1 noTimeout)) !! 0 = Some (NewMessage "m1" "hello") ∧
  subscribers (engine (demo (NewGoChannel 1 noTimeout))) !! "orders"
  = Some [mkSubscriber "s1" 0] ∧
  chans (demo (NewGoChannel 1 noTimeout)) !! 0 = Some (mkChannel 1 false []) ∧
  chans (Publish "orders" [0] (demo (NewGoChannel 1 noTimeout))
           [Push; Nacks; Push; Nacks; Push; Acks]).1.2 !! 0
  = Some (mkChannel 1 false [1; 2; 3]).
Proof.
  split; [reflexivity|]. split; [reflexivity|]. split; [reflexivity|].
  refine (proj1 (proj2 (proj2 (proj2 (proj2
    (nack_then_ack_redelivers (demo (NewGoChannel 1 noTimeout)) "orders" 0
       (NewMessage "m1" "hello") (mkSubscriber "s1" 0) (mkChannel 1 false [])
       2 [] _ _ _ _)))))); reflexivity.
Defined.

(** ** Shutdown *)

(** When the last choice a send consumes is the shutdown case, the send
    returns nil. *)
Lemma sendLoop_shutdown_last msg s t o2 :
  ∀ o1 ds w r w',
    sendLoop msg s t ds (o1 ++ Shutdown :: o2) w = (r, w', o2) →
    r = Returned None.
Proof.
  induction o1 as [|c|c1 c2 o1 IH] using schedule_ind; intros ds w r w';
    loop_cases; try (by eapply IH);
    intros Hrun;
    first [ injection Hrun as <- <- Hl; first [reflexivity | longer Hl]
          | injection Hrun as <- <-; reflexivity ].
Qed.

(** The state after [N] rounds of push and nack. *)
Lemma sendLoop_nackRounds msg m s t o (N : nat) :
  ∀ ds w ch,
    heap w !! msg = Some m →
    chans w !! outputChannel s = Some ch → chClosed ch = false →
    sendLoop msg s t ds (nackRounds N ++ o) w
    = sendLoop msg s t (rev (seq (length (heap w)) N) ++ ds) o
        (mkWorld
           (heap w ++ replicate N (setAck nack (freshCopy m)))
           (<[outputChannel s :=
                mkChannel (capacity ch) false
                  (sent ch ++ seq (length (heap w)) N)]> (chans w))
           (engine w) (spawned w)
           (log w
            ++ flat_map (roundEvents msg m s "Nack received, resending message")
                 (seq (length (heap w)) N))).
Proof.
  induction N as [|N IH]; intros ds w ch Hm Hc Hopen.
  - simpl. rewrite !app_nil_r. f_equal.
    rewrite list_insert_id; [by destruct w|].
    destruct ch as [cap cl snt]. simpl in *. subst cl. exact Hc.
  - simpl nackRounds. simpl app. cbn [sendLoop]. rewrite Hm. simpl.
    rewrite Hc, Hopen.
    erewrite IH; cycle 1.
    + simpl. rewrite list_lookup_alter_ne by (apply lookup_lt_Some in Hm; lia).
      by apply lookup_app_l_Some.
    + simpl. apply list_lookup_insert_eq. by apply lookup_lt_Some in Hc.
    + done.
    + simpl. rewrite ?Hopen.
      rewrite alter_last, length_app. simpl. rewrite Nat.add_1_r.
      f_equal.
      * by rewrite <- !app_assoc.
      * apply world_eq.
        -- by rewrite <- !app_assoc.
        -- rewrite list_insert_insert_eq. by rewrite <- !app_assoc.
        -- by rewrite <- !app_assoc.
Qed.

Lemma sendLoop_shutdown_rounds msg m s t rest (N : nat) w ch :
  closing (engine w) = true →
  heap w !! msg = Some m →
  chans w !! outputChannel s = Some ch → chClosed ch = false →
  let atSend := sendLoop msg s t [] (nackRounds N ++ Shutdown :: rest) w in
  let atAck := sendLoop msg s t [] (nackRounds N ++ Push :: Shutdown :: rest) w in
  (atSend.1.1 = Returned None ∧ atSend.2 = rest) ∧
  (atAck.1.1 = Returned None ∧ atAck.2 = rest).
Proof.
  intros Hcl Hm Hc Hopen. simpl.
  rewrite !(sendLoop_nackRounds msg m s t _ N [] w ch Hm Hc Hopen).
  assert (Hm' : (heap w ++ replicate N (setAck nack (freshCopy m))) !! msg = Some m)
    by (by apply lookup_app_l_Some).
  split.
  - simpl. rewrite Hm'. simpl. by rewrite Hcl.
  - simpl. rewrite Hm'. simpl.
    rewrite list_lookup_insert_eq by (by apply lookup_lt_Some in Hc).
    simpl. by rewrite Hcl.
Qed.

Lemma extends_lookup w w' p m :
  extends w w' → heap w !! p = Some m → heap w' !! p = Some m.
Proof. intros [_ _ Hh _ _] Hp. by eapply prefix_lookup_Some. Qed.

Lemma extends_closing w w' :
  extends w w' → closing (engine w') = closing (engine w).
Proof. intros [He _ _ _ _]. by rewrite He. Qed.

Lemma extends_subscribersOf topic w w' :
  extends w w' → subscribersOf topic w' = subscribersOf topic w.
Proof. intros [He _ _ _ _]. unfold subscribersOf. by rewrite He. Qed.

Lemma sendMessageToSubscriber_shutdown msg m s t w rest :
  closing (engine w) = true → heap w !! msg = Some m →
  ∃ w', sendMessageToSubscriber msg s t w (Shutdown :: rest)
        = (Returned None, w', rest) ∧ extends w w'.
Proof.
  intros Hcl Hm.
  pose proof (sendMessageToSubscriber_extends msg s t w (Shutdown :: rest)) as He.
  destruct (sendMessageToSubscriber msg s t w (Shutdown :: rest))
    as [[r w'] o'] eqn:E.
  unfold sendMessageToSubscriber in E. simpl in E. rewrite Hm in E.
  simpl in E. rewrite Hcl in E. injection E as <- Hw <-.
  exists w'. split; [reflexivity | exact He].
Qed.

Lemma serve_shutdown msg m subs :
  ∀ w rest, closing (engine w) = true → heap w !! msg = Some m →
    ∃ w', serve msg subs w (replicate (length subs) Shutdown ++ rest)
          = (Returned None, w', rest) ∧ extends w w'.
Proof.
  induction subs as [|s subs IH]; intros w rest Hcl Hm; simpl.
  - exists w. split; [reflexivity | apply extends_refl].
  - unfold bind, gets. simpl.
    destruct (sendMessageToSubscriber_shutdown msg m s (sendTimeout (engine w)) w
                (replicate (length subs) Shutdown ++ rest) Hcl Hm)
      as (w1 & -> & He1).
    destruct (IH w1 rest) as (w2 & -> & He2).
    + by rewrite (extends_closing _ _ He1).
    + by eapply extends_lookup.
    + exists w2. split; [reflexivity | by eapply extends_trans].
Qed.

Lemma sendMessage_shutdown topic msg m w rest :
  closing (engine w) = true → heap w !! msg = Some m →
  ∃ w', sendMessage topic msg w
          (replicate (length (subscribersOf topic w)) Shutdown ++ rest)
        = (Returned None, w', rest) ∧ extends w w'.
Proof.
  intros Hcl Hm.
  pose proof (sendMessage_extends topic msg w
                (replicate (length (subscribersOf topic w)) Shutdown ++ rest)) as He.
  unfold sendMessage, subscribersOf, bind, tell, deferred, gets in *. simpl in *.
  destruct (subscribers (engine w) !! topic) as [subs|]; simpl in *.
  - destruct (serve_shutdown msg m subs (emit (EvRLock subscribersLock) w) rest
                Hcl Hm) as (w1 & Hrun & _).
    rewrite Hrun in *. simpl in *. eauto.
  - eauto.
Qed.

Lemma allocated_extends w w' msgs :
  extends w w' → allocated w msgs → allocated w' msgs.
Proof.
  intros He Hall. eapply Forall_impl; [exact Hall|].
  intros p [m Hm]. exists m. by eapply extends_lookup.
Qed.

Lemma deliver_shutdown topic msgs :
  ∀ w rest, closing (engine w) = true → allocated w msgs →
    ∃ w', deliver topic msgs w
            (replicate (length msgs * length (subscribersOf topic w)) Shutdown ++ rest)
          = (Returned None, w', rest) ∧ extends w w'.
Proof.
  induction msgs as [|msg msgs IH]; intros w rest Hcl Hall; simpl.
  - exists w. split; [reflexivity | apply extends_refl].
  - apply Forall_cons in Hall as [[m Hm] Hall].
    rewrite replicate_add, <- app_assoc. unfold bind.
    destruct (sendMessage_shutdown topic msg m w
                (replicate (length msgs * length (subscribersOf topic w)) Shutdown
                 ++ rest) Hcl Hm) as (w1 & -> & He1).
    rewrite <- (extends_subscribersOf topic _ _ He1).
    destruct (IH w1 rest) as (w2 & -> & He2).
    + by rewrite (extends_closing _ _ He1).
    + by eapply allocated_extends.
    + exists w2. split; [reflexivity | by eapply extends_trans].
Qed.

Lemma Publish_shutdown topic msgs w rest :
  closing (engine w) = true → allocated w msgs →
  ∃ w', Publish topic msgs w
          (replicate (length msgs * length (subscribersOf topic w)) Shutdown ++ rest)
        = (Returned None, w', rest) ∧ extends (recorded topic msgs w) w'.
Proof.
  intros Hcl Hall. rewrite Publish_deliver.
  destruct (recorded_frame topic msgs w) as (Hh & _ & _ & _ & Hs & _ & Hc & _).
  replace (subscribersOf topic w) with (subscribersOf topic (recorded topic msgs w))
    by (unfold subscribersOf; by rewrite Hs).
  apply deliver_shutdown.
  - by rewrite Hc.
  - unfold allocated. by rewrite Hh.
Qed.

(** C5: the shutdown case of either [select] ends the delivery to that
    subscriber with nil, never an error.  Whenever the last choice a send
    consumes is the shutdown case it returns nil; with the engine closing,
    that happens at the push wait and at the ack wait, after any number of
    nacked rounds; the loop over the subscribers then goes on with the
    next one as after an ack; and a publish all of whose waits take the
    shutdown case goes through every subscriber and every message and
    returns nil. *)
Theorem shutdown_abandons_silently (w : world)
    (Hclosing : closing (engine w) = true) :
  (∀ msg s t o1 o2 r w',
     sendMessageToSubscriber msg s t w (o1 ++ Shutdown :: o2) = (r, w', o2) →
     r = Returned None) ∧
  (∀ msg m s ch t N rest,
     heap w !! msg = Some m →
     chans w !! outputChannel s = Some ch → chClosed ch = false →
     let atSend :=
       sendMessageToSubscriber msg s t w (nackRounds N ++ Shutdown :: rest) in
     let atAck :=
       sendMessageToSubscriber msg s t w (nackRounds N ++ Push :: Shutdown :: rest) in
     (atSend.1.1 = Returned None ∧ atSend.2 = rest) ∧
     (atAck.1.1 = Returned None ∧ atAck.2 = rest)) ∧
  (∀ msg s others o1 o2 r w',
     sendMessageToSubscriber msg s (sendTimeout (engine w)) w (o1 ++ Shutdown :: o2)
     = (r, w', o2) →
     serve msg (s :: others) w (o1 ++ Shutdown :: o2) = serve msg others w' o2) ∧
  (∀ topic msgs rest,
     allocated w msgs →
     let r := Publish topic msgs w
                (replicate (length msgs * length (subscribersOf topic w)) Shutdown
                 ++ rest) in
     r.1.1 = Returned None ∧ r.2 = rest).
Proof.
  split; [|split; [|split]].
  - intros msg s t o1 o2 r w'. apply sendLoop_shutdown_last.
  - intros msg m s ch t N rest Hm Hc Hopen.
    by apply (sendLoop_shutdown_rounds msg m s t rest N w ch).
  - intros msg s others o1 o2 r w' Hrun.
    pose proof (sendLoop_shutdown_last _ _ _ _ _ _ _ _ _ Hrun) as ->.
    cbn [serve]. unfold bind at 1, gets. cbn [fst snd]. unfold bind.
    by rewrite Hrun.
  - intros topic msgs rest Hall.
    destruct (Publish_shutdown topic msgs w rest Hclosing Hall) as (w' & -> & _).
    by split.
Qed.

Lemma shutdown_abandons_silently_witness :
  closing (engine (Close (demo (NewGoChannel 1 10)) []).1.2) = true ∧
  (Publish "orders" [0] (Close (demo (NewGoChannel 1 10)) []).1.2 [Shutdown]).1.1
  = Returned None.
Proof.
  split; [reflexivity|].
  refine (proj1 (proj2 (proj2 (proj2
    (shutdown_abandons_silently (Close (demo (NewGoChannel 1 10)) []).1.2 _)))
    "orders" [0] [] _)).
  - reflexivity.
  - constructor; [by eexists | constructor].
Defined.

(** ** Sequencing of the loops *)



(** ** Errors within a publish of several messages *)



(** ** Order of service *)






(** The registration appends the subscriber to the list of its topic. *)
Lemma subscribersOf_append topic s g :
  default [] (subscribers (appendSubscriber topic s g) !! topic)
  = default [] (subscribers g !! topic) ++ [s].
Proof.
  unfold appendSubscriber. simpl. rewrite lookup_insert_eq. simpl.
  destruct (subscribers g !! topic) eqn:Hs; simpl.
  - by rewrite Hs.
  - by rewrite lookup_insert_eq.
Qed.

Lemma replayRetained_extends topic s : steady extends (replayRetained topic s).
Proof.
  unfold replayRetained.
  apply steady_bind; [apply extends_trans|apply steady_gets, extends_refl|].
  intros [|]; [|apply steady_ret, extends_refl].
  apply steady_bind; [apply extends_trans|apply steady_gets, extends_refl|].
  intros [msgs|]; [apply replay_extends | apply steady_ret, extends_refl].
Qed.

Lemma subscribeRoutine_run topic s w o :
  subscribeRoutine topic s w o =
  match replayRetained topic s (emit (EvRLock messagesMutex) w) o with
  | (Returned _, w1, o1) => (Returned tt, registered topic s w1, o1)
  | (Panicked p, w1, o1) => (Panicked p, w1, o1)
  | (Blocked, w1, o1) => (Blocked, w1, o1)
  | (Infeasible, w1, o1) => (Infeasible, w1, o1)
  end.
Proof.
  unfold subscribeRoutine, bind, tell, deferred, modify. simpl.
  by destruct (replayRetained topic s (emit (EvRLock messagesMutex) w) o)
    as [[[[]| | |] w1] o1].
Qed.

Lemma subscribeRoutine_registers topic s w o w' o' :
  subscribeRoutine topic s w o = (Returned tt, w', o') →
  subscribersOf topic w' = subscribersOf topic w ++ [s].
Proof.
  rewrite subscribeRoutine_run.
  pose proof (replayRetained_extends topic s (emit (EvRLock messagesMutex) w) o)
    as Hext.
  destruct (replayRetained topic s (emit (EvRLock messagesMutex) w) o)
    as [[[[]| | |] w1] o1]; try discriminate.
  intros [= <- <-]. unfold subscribersOf, registered.
  cbn [engine emit setEngine].
  rewrite subscribersOf_append. simpl in Hext.
  by rewrite (ext_engine _ _ Hext).
Qed.



(** ** Close *)

Lemma closeChan_keepsClosed c : steady keepsClosed (closeChan c).
Proof.
  intros w o. unfold closeChan, keepsClosed.
  destruct (chans w !! c) as [ch|]; [|done]. by destruct (chClosed ch).
Qed.

Lemma closeAll_keepsClosed subs : steady keepsClosed (closeAll subs).
Proof.
  assert (Ht : ∀ w1 w2 w3, keepsClosed w1 w2 → keepsClosed w2 w3 → keepsClosed w1 w3)
    by (unfold keepsClosed; congruence).
  induction subs as [|s subs IH]; simpl.
  - by apply steady_ret.
  - apply steady_bind; [exact Ht|apply closeChan_keepsClosed|]. intros _. exact IH.
Qed.

(** After a call of [Close], however it ended, the closed flag is set. *)
Lemma Close_closed w o : closed (engine (Close w o).1.2) = true.
Proof.
  assert (Ht : ∀ w1 w2 w3, keepsClosed w1 w2 → keepsClosed w2 w3 → keepsClosed w1 w3)
    by (unfold keepsClosed; congruence).
  assert (Hr : ∀ w, keepsClosed w w) by done.
  unfold Close. destruct (closed (engine w)) eqn:Hc; [exact Hc|].
  unfold closeNow, bind at 1, modify at 1.
  match goal with
  | |- closed (engine (?rest ?w1 o).1.2) = true =>
      assert (Hs : steady keepsClosed rest); [|exact (Hs w1 o)]
  end.
  assert (He : ∀ e w, keepsClosed w (emit e w)) by done.
  apply steady_bind; [exact Ht| |].
  - apply steady_bind; [exact Ht|apply steady_gets, Hr|].
    intros [|]; [apply steady_throw, Hr|].
    apply steady_bind; [exact Ht|apply steady_modify; intros w'; reflexivity|].
    intros _. apply steady_tell, He.
  - intros _. apply steady_bind; [exact Ht|apply steady_tell, He|].
    intros _. apply steady_deferred; [exact Ht|apply He|].
    apply steady_bind; [exact Ht|apply steady_gets, Hr|].
    intros subs. apply steady_bind; [exact Ht|apply closeAll_keepsClosed|].
    intros _. apply steady_ret, Hr.
Qed.

(** C7: after a first call of [Close], whatever the engine and however
    that call ended, every further call returns nil and leaves the state,
    its log included, as it is: it closes no queue, and the state after
    any number of further calls is the state after the first. *)
Theorem Close_idempotent (w : world) (o : list choice) (n : nat) :
  let after := closeOnce (w, o) in
  Close after.1 after.2 = (Returned None, after.1, after.2) ∧
  closeOnce after = after ∧
  Nat.iter n closeOnce after = after.
Proof.
  intros after.
  assert (Hagain : Close after.1 after.2 = (Returned None, after.1, after.2)).
  { unfold Close at 1. subst after. unfold closeOnce. simpl.
    by rewrite Close_closed. }
  assert (Hstep : closeOnce after = after).
  { unfold closeOnce at 1. rewrite Hagain. reflexivity. }
  split; [exact Hagain|]. split; [exact Hstep|].
  induction n as [|n IH]; simpl; [done|]. by rewrite IH.
Qed.

(** ** Fields of the engine a call does not read *)

Lemma lifts_ret {A} f (a : A) : lifts f (ret a).
Proof. done. Qed.

Lemma lifts_throw {A} f p : lifts f (@throw A p).
Proof. done. Qed.

Lemma lifts_tell f e : lifts f (tell e).
Proof. done. Qed.

Lemma lifts_gets {A} f (g : world → A) :
  (∀ w, g (onEngine f w) = g w) → lifts f (gets g).
Proof. intros Hg w o. unfold gets, lift. simpl. by rewrite Hg. Qed.

Lemma lifts_modify f h :
  (∀ w, h (onEngine f w) = onEngine f (h w)) → lifts f (modify h).
Proof. intros Hh w o. unfold modify, lift. simpl. by rewrite Hh. Qed.

Lemma lifts_bind {A B} f (m : M A) (k : A → M B) :
  lifts f m → (∀ a, lifts f (k a)) → lifts f (bind m k).
Proof.
  intros Hm Hk w o. unfold bind. rewrite Hm. unfold lift at 1.
  destruct (m w o) as [[[a| | |] w1] o1]; simpl; try reflexivity.
  apply Hk.
Qed.

Lemma lifts_deferred {A} f e (body : M A) :
  lifts f body → lifts f (deferred (emit e) body).
Proof.
  intros Hm w o. unfold deferred. rewrite Hm. unfold lift at 1.
  by destruct (body w o) as [[[a| | |] w1] o1].
Qed.

(** The delivery loop reads no field of the engine but [closing]. *)
Lemma sendLoop_lift f msg s t o :
  (∀ g, closing (f g) = closing g) →
  ∀ ds w, sendLoop msg s t ds o (onEngine f w) = lift f (sendLoop msg s t ds o w).
Proof.
  intros Hf.
  induction o as [|c|c1 c2 o IH] using schedule_ind; intros ds w;
    repeat (simpl; rewrite ?Hf;
            match goal with
            | |- context [match ?x with _ => _ end] => destruct x eqn:?
            end);
    try reflexivity.
  match goal with
  | |- _ = lift f (sendLoop _ _ _ ?ds' _ ?w') => exact (IH ds' w')
  end.
Qed.

Lemma sendMessageToSubscriber_lifts f msg s t :
  (∀ g, closing (f g) = closing g) → lifts f (sendMessageToSubscriber msg s t).
Proof. intros Hf w o. by apply sendLoop_lift. Qed.

Lemma replay_lifts f msgs s :
  (∀ g, closing (f g) = closing g) → lifts f (replay msgs s).
Proof.
  intros Hf. induction msgs as [|msg msgs IH]; simpl.
  - apply lifts_ret.
  - apply lifts_bind; [by apply sendMessageToSubscriber_lifts|].
    intros [e|]; [apply lifts_throw | exact IH].
Qed.

Lemma serve_lifts f message subs :
  (∀ g, closing (f g) = closing g) →
  (∀ g, sendTimeout (f g) = sendTimeout g) →
  lifts f (serve message subs).
Proof.
  intros Hf Ht. induction subs as [|s subs IH]; simpl.
  - apply lifts_ret.
  - apply lifts_bind; [apply lifts_gets; intros w; simpl; apply Ht|].
    intros t. apply lifts_bind; [by apply sendMessageToSubscriber_lifts|].
    intros [e|]; [apply lifts_ret | exact IH].
Qed.

Lemma sendMessage_lifts f topic message :
  (∀ g, closing (f g) = closing g) →
  (∀ g, sendTimeout (f g) = sendTimeout g) →
  (∀ g, subscribers (f g) = subscribers g) →
  lifts f (sendMessage topic message).
Proof.
  intros Hf Ht Hs. unfold sendMessage.
  apply lifts_bind; [apply lifts_tell|]. intros _.
  apply lifts_deferred.
  apply lifts_bind; [apply lifts_gets; intros w; simpl; by rewrite Hs|].
  intros [subs|]; [by apply serve_lifts | apply lifts_ret].
Qed.

Lemma deliver_lifts f topic msgs :
  (∀ g, closing (f g) = closing g) →
  (∀ g, sendTimeout (f g) = sendTimeout g) →
  (∀ g, subscribers (f g) = subscribers g) →
  lifts f (deliver topic msgs).
Proof.
  intros Hf Ht Hs. induction msgs as [|msg msgs IH]; simpl.
  - apply lifts_ret.
  - apply lifts_bind; [by apply sendMessage_lifts|].
    intros [e|]; [apply lifts_ret | exact IH].
Qed.

(** [Publish] does not read the closed flag. *)
Lemma Publish_lifts_setClosed b topic msgs :
  lifts (setClosed b) (Publish topic msgs).
Proof.
  unfold Publish. apply lifts_bind; [|intros _; by apply deliver_lifts].
  unfold record. apply lifts_bind; [by apply lifts_gets|].
  intros [|]; [|apply lifts_ret].
  apply lifts_bind; [apply lifts_tell|]. intros _.
  apply lifts_bind; [by apply lifts_modify|]. intros _.
  apply lifts_bind; [apply lifts_tell|]. intros _. apply lifts_tell.
Qed.

(** The goroutine of [Subscribe] does not read the configured timeout. *)
Lemma subscribeRoutine_lifts_setSendTimeout t topic s :
  lifts (setSendTimeout t) (subscribeRoutine topic s).
Proof.
  unfold subscribeRoutine.
  apply lifts_bind; [apply lifts_tell|]. intros _.
  apply lifts_bind.
  { unfold replayRetained. apply lifts_bind; [by apply lifts_gets|].
    intros [|]; [|apply lifts_ret].
    apply lifts_bind; [by apply lifts_gets|].
    intros [msgs|]; [by apply replay_lifts | apply lifts_ret]. }
  intros _. apply lifts_bind; [apply lifts_tell|]. intros _.
  apply lifts_deferred.
  apply lifts_bind; [apply lifts_tell|]. intros _.
  apply lifts_bind; [by apply lifts_modify|]. intros _. apply lifts_tell.
Qed.

(** ** Replay *)

(** The delivery loop panics only on a nil message or a closed queue. *)
Lemma sendLoop_panics msg s t o :
  ∀ ds w p, (sendLoop msg s t ds o w).1.1 = Panicked p →
            p = NilPointerDereference ∨ p = SendOnClosedChannel.
Proof.
  induction o as [|c|c1 c2 o IH] using schedule_ind; intros ds w p;
    loop_cases; try (by eapply IH); intros [= <-] || intros [=]; auto.
Qed.

Lemma replay_unfold msg rest s w o :
  replay (msg :: rest) s w o =
  match sendMessageToSubscriber msg s noTimeout w o with
  | (Returned (Some e), w1, o1) => (Panicked (PanicError e), w1, o1)
  | (Returned None, w1, o1) => replay rest s w1 o1
  | (Panicked p, w1, o1) => (Panicked p, w1, o1)
  | (Blocked, w1, o1) => (Blocked, w1, o1)
  | (Infeasible, w1, o1) => (Infeasible, w1, o1)
  end.
Proof.
  simpl. unfold bind.
  by destruct (sendMessageToSubscriber msg s noTimeout w o)
    as [[[[e|]| | |] w1] o1].
Qed.

Lemma replay_never_panics_on_error msgs s :
  ∀ w o e, (replay msgs s w o).1.1 ≠ Panicked (PanicError e).
Proof.
  induction msgs as [|msg msgs IH]; intros w o e; [discriminate|].
  rewrite replay_unfold.
  pose proof (sendLoop_noTimeout msg s o [] w) as Hne.
  pose proof (sendLoop_panics msg s noTimeout o [] w) as Hp.
  unfold sendMessageToSubscriber.
  destruct (sendLoop msg s noTimeout [] o w) as [[[[e'|]|p| |] w1] o1];
    simpl in *; try discriminate.
  - by destruct (Hne e').
  - apply IH.
  - destruct (Hp p eq_refl) as [-> | ->]; discriminate.
Qed.

Lemma replay_log msgs s :
  ∀ w o, ∃ evs, log (replay msgs s w o).1.2 = log w ++ evs ∧
                Forall (deliveryEvent (uuid s)) evs.
Proof.
  induction msgs as [|msg msgs IH]; intros w o.
  - exists []. split; [by rewrite app_nil_r | constructor].
  - rewrite replay_unfold.
    destruct (sendLoop_log msg s noTimeout o [] w) as (evs1 & Hlog1 & Hall1).
    unfold sendMessageToSubscriber.
    destruct (sendLoop msg s noTimeout [] o w) as [[[[e'|]|p| |] w1] o1];
      simpl in *; eauto.
    destruct (IH w1 o1) as (evs2 & -> & Hall2). rewrite Hlog1.
    exists (evs1 ++ evs2). split; [by rewrite app_assoc|].
    by apply Forall_app.
Qed.

Lemma replayRetained_log topic s w o :
  ∃ evs, log (replayRetained topic s w o).1.2 = log w ++ evs ∧
         Forall (deliveryEvent (uuid s)) evs.
Proof.
  unfold replayRetained, bind, gets. simpl.
  destruct (persistent (engine w)); simpl;
    [|exists []; split; [by rewrite app_nil_r | constructor]].
  destruct (messages (engine w) !! topic) as [msgs|];
    [apply replay_log | exists []; split; [by rewrite app_nil_r | constructor]].
Qed.

Lemma replayRetained_never_panics_on_error topic s w o e :
  (replayRetained topic s w o).1.1 ≠ Panicked (PanicError e).
Proof.
  unfold replayRetained, bind, gets. simpl.
  destruct (persistent (engine w)); simpl; [|discriminate].
  destruct (messages (engine w) !! topic) as [msgs|]; [|discriminate].
  apply replay_never_panics_on_error.
Qed.

(** C9: the replay of the goroutine of [Subscribe] sends every retained
    message with [noTimeout], an error of such a send being turned into a
    panic; so the goroutine does the same whatever send timeout the engine
    was built with, it never panics with a send error, and a schedule in
    which the timer fires during a replay send cannot happen. *)
Theorem replay_has_no_timeout
    (w : world) (o : list choice) (topic : string) (s : subscriber) :
  (∀ msg rest,
     replay (msg :: rest) s w o =
     match sendMessageToSubscriber msg s noTimeout w o with
     | (Returned (Some e), w1, o1) => (Panicked (PanicError e), w1, o1)
     | (Returned None, w1, o1) => replay rest s w1 o1
     | (Panicked p, w1, o1) => (Panicked p, w1, o1)
     | (Blocked, w1, o1) => (Blocked, w1, o1)
     | (Infeasible, w1, o1) => (Infeasible, w1, o1)
     end) ∧
  (∀ t, subscribeRoutine topic s (onEngine (setSendTimeout t) w) o
        = lift (setSendTimeout t) (subscribeRoutine topic s w o)) ∧
  (∀ e, (subscribeRoutine topic s w o).1.1 ≠ Panicked (PanicError e)) ∧
  (∀ msg m rest o',
     persistent (engine w) = true →
     messages (engine w) !! topic = Some (msg :: rest) →
     heap w !! msg = Some m →
     (subscribeRoutine topic s w (TimerFires :: o')).1.1 = Infeasible).
Proof.
  split; [|split; [|split]].
  - intros msg rest. apply replay_unfold.
  - intros t. apply subscribeRoutine_lifts_setSendTimeout.
  - intros e. rewrite subscribeRoutine_run.
    pose proof (replayRetained_never_panics_on_error topic s
                  (emit (EvRLock messagesMutex) w) o e) as Hne.
    destruct (replayRetained topic s (emit (EvRLock messagesMutex) w) o)
      as [[[[]| | |] w1] o1]; simpl in *; congruence.
  - intros msg m rest o' Hp Hmsgs Hm. rewrite subscribeRoutine_run.
    unfold replayRetained, bind, gets. cbn [fst snd engine emit].
    rewrite Hp. cbn [fst snd engine emit]. rewrite Hmsgs, replay_unfold.
    unfold sendMessageToSubscriber. cbn [sendLoop heap emit].
    by rewrite Hm.
Qed.

Lemma replay_has_no_timeout_witness :
  sendTimeout (engine (demoRetained (NewPersistentGoChannel 1 10))) = 10%Z ∧
  persistent (engine (demoRetained (NewPersistentGoChannel 1 10))) = true ∧
  messages (engine (demoRetained (NewPersistentGoChannel 1 10))) !! "orders"
  = Some [0] ∧
  heap (demoRetained (NewPersistentGoChannel 1 10)) !! 0
  = Some (NewMessage "m1" "hello") ∧
  (subscribeRoutine "orders" (mkSubscriber "s1" 0)
     (demoRetained (NewPersistentGoChannel 1 10)) [TimerFires]).1.1 = Infeasible.
Proof.
  split; [reflexivity|]. split; [reflexivity|]. split; [reflexivity|].
  split; [reflexivity|].
  destruct (replay_has_no_timeout (demoRetained (NewPersistentGoChannel 1 10))
              [] "orders" (mkSubscriber "s1" 0)) as (_ & _ & _ & Htimer).
  apply (Htimer 0 (NewMessage "m1" "hello") [] []); reflexivity.
Defined.

(** ** Subscribe *)






(** ** The two locks of the registration *)




(** The window the lock order leaves open.  [Publish] gives up the
    retention lock when its append is done and only then asks for the read
    lock of the registry; a goroutine of [Subscribe] that runs in between
    replays the message and registers, and the delivery that follows hands
    the same message to the same subscriber again. *)
Example subscription_between_append_and_delivery :
  let w0 := (Subscribe "orders" "s1"
               (alloc (NewMessage "m1" "hello")
                  (newWorld (NewPersistentGoChannel 1 noTimeout))) []).1.2 in
  let w1 := recorded "orders" [0] w0 in
  let w2 := (subscribeRoutine "orders" (mkSubscriber "s1" 0) w1 [Push; Acks]).1.2 in
  let r := deliver "orders" [0] w2 [Push; Acks] in
  drop 1 (log w1)
  = [EvLock messagesMutex; EvAppend "orders" [0]; EvUnlock messagesMutex] ∧
  r.1.1 = Returned None ∧
  chans r.1.2 !! 0 = Some (mkChannel 1 false [1; 2]) ∧
  omap (λ e, match e with EvCopy src dst => Some (src, dst) | _ => None end)
    (log r.1.2) = [(0, 1); (0, 2)].
Proof. by vm_compute. Qed.

(** ** Publish after Close *)

Lemma Close_keeps {A} (p : GoChannel → A) :
  (∀ b g, p (setClosed b g) = p g) →
  (∀ b g, p (setClosing b g) = p g) →
  steady (keeps p) Close.
Proof.
  intros Hclosed Hclosing.
  assert (Ht : ∀ w1 w2 w3, keeps p w1 w2 → keeps p w2 w3 → keeps p w1 w3)
    by (unfold keeps; congruence).
  assert (Hr : ∀ w, keeps p w w) by done.
  assert (He : ∀ e w, keeps p w (emit e w)) by done.
  assert (Hall : ∀ subs, steady (keeps p) (closeAll subs)).
  { induction subs as [|s subs IH]; simpl; [apply steady_ret, Hr|].
    apply steady_bind; [exact Ht| |intros _; exact IH].
    intros w o. unfold closeChan, keeps.
    destruct (chans w !! outputChannel s) as [ch|]; [|done].
    by destruct (chClosed ch). }
  assert (Hnow : steady (keeps p) closeNow); cycle 1.
  { intros w o. unfold Close. destruct (closed (engine w)); [apply Hr|apply Hnow]. }
  unfold closeNow.
  apply steady_bind; [exact Ht|apply steady_modify; intros w; apply Hclosed|].
  intros _. apply steady_bind; [exact Ht| |].
  - apply steady_bind; [exact Ht|apply steady_gets, Hr|].
    intros [|]; [apply steady_throw, Hr|].
    apply steady_bind; [exact Ht|apply steady_modify; intros w; apply Hclosing|].
    intros _. apply steady_tell, He.
  - intros _. apply steady_bind; [exact Ht|apply steady_tell, He|].
    intros _. apply steady_deferred; [exact Ht|apply He|].
    apply steady_bind; [exact Ht|apply steady_gets, Hr|].
    intros subs. apply steady_bind; [exact Ht|apply Hall|].
    intros _. apply steady_ret, Hr.
Qed.

(** With nobody registered on the topic every delivery returns nil. *)
Lemma deliver_no_subscribers topic msgs :
  ∀ w o, subscribersOf topic w = [] →
    (deliver topic msgs w o).1.1 = Returned None ∧ (deliver topic msgs w o).2 = o.
Proof.
  induction msgs as [|msg msgs IH]; intros w o Hnone; [done|].
  cbn [deliver]. unfold bind.
  assert (Hsend : ∃ w1, sendMessage topic msg w o = (Returned None, w1, o) ∧
                        subscribersOf topic w1 = []).
  { unfold sendMessage, bind, tell, deferred, gets.
    cbn [fst snd engine emit]. unfold subscribersOf in Hnone.
    destruct (subscribers (engine w) !! topic) as [subs|] eqn:Hs; simpl in Hnone.
    - subst subs. cbn [serve ret]. eexists. split; [reflexivity|].
      unfold subscribersOf. cbn [engine emit]. by rewrite Hs.
    - cbn [ret]. eexists. split; [reflexivity|].
      unfold subscribersOf. cbn [engine emit]. by rewrite Hs. }
  destruct Hsend as (w1 & -> & Hnone1). by apply IH.
Qed.

(** C10, as stated, fails: after [Close], a publish on a topic with a
    registered subscriber can find the closed queue ready for the push
    and panics, or see the timer fire and return the timeout error; the
    messages are in the retention log all the same. *)
Lemma publish_after_close_may_not_return_nil :
  closed (engine (Close (demo (NewPersistentGoChannel 1 10)) []).1.2) = true ∧
  (Publish "orders" [0] (Close (demo (NewPersistentGoChannel 1 10)) []).1.2
     [Push]).1.1 = Panicked SendOnClosedChannel ∧
  (Publish "orders" [0] (Close (demo (NewPersistentGoChannel 1 10)) []).1.2
     [TimerFires]).1.1 = Returned (Some (SendTimeouted "m1" 10)) ∧
  messages (engine
    (Publish "orders" [0] (Close (demo (NewPersistentGoChannel 1 10)) []).1.2
       [Push]).1.2) !! "orders" = Some [0].
Proof. by vm_compute. Qed.

(** C10, amended: [Publish] does not read the closed flag.  On a
    persistent engine on which [Close] was called, it still appends all
    its messages to the retention log of the topic, whatever happens to
    the deliveries; it returns nil when nobody is registered on the topic,
    and when every wait of its deliveries takes the shutdown case. *)
Theorem Publish_after_Close
    (w : world) (o : list choice) (topic : string) (msgs : list ptr)
    (Hp : persistent (engine w) = true) :
  let w1 := (Close w o).1.2 in
  (∀ b o', Publish topic msgs (onEngine (setClosed b) w1) o'
           = lift (setClosed b) (Publish topic msgs w1 o')) ∧
  (∀ o', messages (engine (Publish topic msgs w1 o').1.2) !! topic
         = Some (default [] (messages (engine w1) !! topic) ++ msgs)) ∧
  (subscribersOf topic w1 = [] →
   ∀ o', (Publish topic msgs w1 o').1.1 = Returned None ∧
         (Publish topic msgs w1 o').2 = o') ∧
  (closing (engine w1) = true → allocated w1 msgs →
   ∀ rest,
     let r := Publish topic msgs w1
                (replicate (length msgs * length (subscribersOf topic w1)) Shutdown
                 ++ rest) in
     r.1.1 = Returned None ∧ r.2 = rest).
Proof.
  intros w1.
  assert (Hp1 : persistent (engine w1) = true).
  { subst w1. rewrite <- Hp. by apply (Close_keeps persistent). }
  split; [|split; [|split]].
  - intros b o'. apply Publish_lifts_setClosed.
  - intros o'. rewrite Publish_deliver.
    rewrite (ext_engine _ _ (deliver_extends topic msgs (recorded topic msgs w1) o')).
    destruct (record_run topic msgs w1 o')
      as (w2 & Hrun & _ & _ & _ & _ & _ & _ & _ & _ & _ & Hlog & _).
    rewrite record_recorded in Hrun. injection Hrun as <-. by apply Hlog.
  - intros Hnone o'. rewrite Publish_deliver. apply deliver_no_subscribers.
    destruct (recorded_frame topic msgs w1) as (_ & _ & _ & _ & Hs & _).
    unfold subscribersOf in *. by rewrite Hs.
  - intros Hcl Hall rest.
    destruct (Publish_shutdown topic msgs w1 rest Hcl Hall) as (w2 & -> & _).
    by split.
Qed.

Lemma Publish_after_Close_witness :
  persistent (engine (demo (NewPersistentGoChannel 1 10))) = true ∧
  messages (engine
    (Publish "orders" [0] (Close (demo (NewPersistentGoChannel 1 10)) []).1.2
       [Push]).1.2) !! "orders"
  = Some (default []
            (messages (engine (Close (demo (NewPersistentGoChannel 1 10)) []).1.2)
               !! "orders") ++ [0]).
Proof.
  split; [reflexivity|].
  destruct (Publish_after_Close (demo (NewPersistentGoChannel 1 10)) []
              "orders" [0] eq_refl) as (_ & Hlog & _).
  apply Hlog.
Defined.

(** * Further properties *)

(** ** What a publish changes *)

(** The delivery loop writes to the queue of its subscriber only. *)
Lemma sendLoop_chans_other msg s t o c :
  c ≠ outputChannel s →
  ∀ ds w, chans (sendLoop msg s t ds o w).1.2 !! c = chans w !! c.
Proof.
  intros Hc.
  induction o as [|c0|c1 c2 o IH] using schedule_ind; intros ds w;
    loop_cases; try reflexivity;
    try (by rewrite list_lookup_insert_ne by done).
  rewrite IH. simpl. by rewrite list_lookup_insert_ne by done.
Qed.

Lemma serve_chans_other message subs c :
  c ∉ channels subs →
  ∀ w o, chans (serve message subs w o).1.2 !! c = chans w !! c.
Proof.
  induction subs as [|s subs IH]; intros Hc w o; [done|].
  apply not_elem_of_cons in Hc as [Hs Hc].
  cbn [serve]. unfold bind, gets. cbn [fst snd].
  pose proof (sendLoop_chans_other message s (sendTimeout (engine w)) o c Hs [] w)
    as Hsend.
  unfold sendMessageToSubscriber.
  destruct (sendLoop message s (sendTimeout (engine w)) [] o w)
    as [[[[e|]| | |] w1] o1]; cbn [fst snd] in *; try exact Hsend.
  rewrite IH by done. exact Hsend.
Qed.

Lemma sendMessage_chans_other topic message c w o :
  c ∉ channels (subscribersOf topic w) →
  chans (sendMessage topic message w o).1.2 !! c = chans w !! c.
Proof.
  unfold sendMessage, subscribersOf, bind, tell, deferred, gets.
  cbn [fst snd engine emit]. intros Hc.
  destruct (subscribers (engine w) !! topic) as [subs|]; [|done].
  pose proof (serve_chans_other message subs c Hc
                (emit (EvRLock subscribersLock) w) o) as Hs.
  by destruct (serve message subs (emit (EvRLock subscribersLock) w) o)
    as [[[a| | |] w1] o1].
Qed.

Lemma deliver_chans_other topic msgs c :
  ∀ w o, c ∉ channels (subscribersOf topic w) →
    chans (deliver topic msgs w o).1.2 !! c = chans w !! c.
Proof.
  induction msgs as [|msg msgs IH]; intros w o Hc; [done|].
  cbn [deliver]. unfold bind.
  pose proof (sendMessage_chans_other topic msg c w o Hc) as Hsend.
  pose proof (sendMessage_extends topic msg w o) as He.
  destruct (sendMessage topic msg w o) as [[[[e|]| | |] w1] o1];
    cbn [fst snd] in *; try exact Hsend.
  rewrite IH; [exact Hsend|]. by rewrite (extends_subscribersOf _ _ _ He).
Qed.

(** X1: a publish on a topic writes to no queue but those of the
    subscribers registered on that topic, whatever the schedule and the
    outcome. *)
Theorem Publish_reaches_only_its_topic
    (w : world) (o : list choice) (topic : string) (msgs : list ptr) (c : chan)
    (Hc : c ∉ channels (subscribersOf topic w)) :
  chans (Publish topic msgs w o).1.2 !! c = chans w !! c.
Proof.
  rewrite Publish_deliver.
  destruct (recorded_frame topic msgs w) as (_ & Hch & _ & _ & Hs & _).
  rewrite deliver_chans_other; [by rewrite Hch|].
  unfold subscribersOf in *. by rewrite Hs.
Qed.

Lemma Publish_reaches_only_its_topic_witness :
  (1 ∉ channels (subscribersOf "orders" (demoTopics (NewGoChannel 1 10)))) ∧
  chans (Publish "orders" [0] (demoTopics (NewGoChannel 1 10)) [Push; Acks]).1.2 !! 1
  = Some (mkChannel 1 false []).
Proof.
  assert (Hc : 1 ∉ channels (subscribersOf "orders" (demoTopics (NewGoChannel 1 10)))).
  { vm_compute. intros H. apply list_elem_of_singleton in H. discriminate. }
  split; [exact Hc|].
  rewrite (Publish_reaches_only_its_topic _ _ _ _ _ Hc). by vm_compute.
Defined.

(** X2: a publish changes nothing of the engine but the retention log: in
    persistent mode the log of the topic is the old one followed by the
    messages of the call (an empty one is made for a topic without log),
    the logs of the other topics are as before; in non-persistent mode
    nothing is kept.  This holds whatever becomes of the deliveries. *)
Theorem Publish_appends_to_retention
    (w : world) (o : list choice) (topic : string) (msgs : list ptr) :
  let g := engine w in
  let g' := engine (Publish topic msgs w o).1.2 in
  messages g' =
    (if persistent g
     then <[topic := default [] (messages g !! topic) ++ msgs]> (messages g)
     else messages g) ∧
  subscribers g' = subscribers g ∧
  closed g' = closed g ∧ closing g' = closing g ∧
  persistent g' = persistent g ∧
  sendTimeout g' = sendTimeout g ∧
  outputChannelBuffer g' = outputChannelBuffer g.
Proof.
  intros g g'. subst g g'. rewrite Publish_deliver.
  rewrite (ext_engine _ _ (deliver_extends topic msgs (recorded topic msgs w) o)).
  unfold recorded, record, bind, gets, tell, modify. cbn [fst snd].
  destruct (persistent (engine w)) eqn:Hp; [|by rewrite ?Hp].
  cbn [fst snd engine emit setEngine].
  unfold appendMessages, setMessages. cbn [messages subscribers closed closing
    persistent sendTimeout outputChannelBuffer].
  split; [|by rewrite ?Hp].
  destruct (messages (engine w) !! topic) as [old|] eqn:Hold.
  - by rewrite Hold.
  - rewrite lookup_insert_eq. by rewrite insert_insert_eq.
Qed.

(** ** Copies *)

Lemma content_alter (f : Message → Message) i (h : list Message) :
  (∀ x, content (f x) = content x) →
  content <$> alter f i h = content <$> h.
Proof.
  intros Hf. rewrite (list_fmap_alter content f id).
  - by apply list_alter_id.
  - apply Forall_forall. intros x _. apply Hf.
Qed.

Lemma content_alter_cancel i (h : list Message) :
  content <$> alter cancelCtx i h = content <$> h.
Proof. apply content_alter. intros x. unfold cancelCtx. by destruct (ctx x). Qed.

Lemma content_alter_ack a i (h : list Message) :
  content <$> alter (setAck a) i h = content <$> h.
Proof. by apply content_alter. Qed.

Lemma content_cancel ds (h : list Message) :
  content <$> foldr (λ p h, alter cancelCtx p h) h ds = content <$> h.
Proof.
  induction ds as [|p ds IH]; simpl; [done|].
  by rewrite content_alter_cancel.
Qed.

(** One call of the delivery loop: the content of the heap grows by copies
    of the message, and the instances pushed are among the new ones, in
    the order they were made. *)
Lemma sendLoop_copies msg s t o m :
  ∀ ds w, heap w !! msg = Some m →
    ∃ n evs,
      content <$> heap (sendLoop msg s t ds o w).1.2
      = (content <$> heap w) ++ replicate n (content m) ∧
      log (sendLoop msg s t ds o w).1.2 = log w ++ evs ∧
      pushed evs `sublist_of` seq (length (heap w)) n.
Proof.
  induction o as [|c|c1 c2 o IH] using schedule_ind; intros ds w Hm;
    cbn [sendLoop]; rewrite Hm;
    loop_cases;
    rewrite ?content_alter_cancel, ?content_cancel, ?content_alter_ack;
    try (exists 1; eexists; rewrite fmap_app, <- ?app_assoc;
         split; [reflexivity|]; split; [reflexivity|];
         simpl; (apply sublist_nil_l || (apply sublist_skip, sublist_nil_l))).
  match goal with
  | |- context [sendLoop msg s t ?ds' o ?w'] =>
      destruct (IH ds' w') as (n & evs & Hh & Hl & Hp)
  end.
  { simpl. rewrite list_lookup_alter_ne by (apply lookup_lt_Some in Hm; lia).
    by apply lookup_app_l_Some. }
  simpl in Hh, Hl, Hp.
  rewrite content_alter_ack, fmap_app in Hh.
  rewrite length_alter, length_app in Hp. simpl in Hp.
  exists (S n). eexists. rewrite Hh, Hl, <- !app_assoc.
  split; [reflexivity|]. split; [reflexivity|].
  simpl. rewrite Nat.add_1_r in Hp. by apply sublist_skip.
Qed.

Lemma pushed_app evs1 evs2 : pushed (evs1 ++ evs2) = pushed evs1 ++ pushed evs2.
Proof. apply omap_app. Qed.

Lemma copies_refl src w : copies src w w.
Proof.
  exists [], []. rewrite !app_nil_r. repeat split; [constructor|apply sublist_nil_l].
Qed.

Lemma copies_trans src w1 w2 w3 : copies src w1 w2 → copies src w2 w3 → copies src w1 w3.
Proof.
  intros (cs1 & evs1 & Hh1 & Hs1 & Hl1 & Hp1) (cs2 & evs2 & Hh2 & Hs2 & Hl2 & Hp2).
  exists (cs1 ++ cs2), (evs1 ++ evs2).
  rewrite Hh2, Hh1, Hl2, Hl1, <- !app_assoc. split; [done|].
  split; [|split; [done|]].
  - apply Forall_app. split; [|by rewrite Hh2, Hh1, <- app_assoc in Hs2].
    eapply Forall_impl; [exact Hs1|]. intros c (q & Hq & Hc).
    exists q. split; [done|]. rewrite Hh1 in Hc.
    rewrite app_assoc. by apply lookup_app_l_Some.
  - rewrite pushed_app, length_app, seq_app. apply sublist_app; [done|].
    assert (Hlen : length (heap w2) = length (heap w1) + length cs1).
    { rewrite <- (length_fmap content (heap w2)), Hh1, length_app.
      by rewrite length_fmap. }
    by rewrite <- Hlen.
Qed.

Lemma copies_emit src e w : pushed [e] = [] → copies src w (emit e w).
Proof.
  intros He. exists [], [e]. rewrite He. simpl. rewrite app_nil_r.
  repeat split; [constructor | apply sublist_nil_l].
Qed.

Lemma sendMessageToSubscriber_copies src msg s t :
  msg ∈ src → steady (copies src) (sendMessageToSubscriber msg s t).
Proof.
  intros Hsrc w o. unfold sendMessageToSubscriber.
  destruct (heap w !! msg) as [m|] eqn:Hm.
  - destruct (sendLoop_copies msg s t o m [] w Hm) as (n & evs & Hh & Hl & Hp).
    exists (replicate n (content m)), evs. rewrite length_replicate.
    split; [done|]. split; [|done].
    apply Forall_replicate. exists msg. split; [done|].
    rewrite Hh. apply lookup_app_l_Some. rewrite list_lookup_fmap.
    exact (f_equal (fmap content) Hm).
  - destruct o as [|c o]; simpl; rewrite Hm; simpl;
      (exists [], []; simpl; rewrite !app_nil_r;
       repeat split; [constructor | apply sublist_nil_l]).
Qed.

Lemma serve_copies src message subs :
  message ∈ src → steady (copies src) (serve message subs).
Proof.
  intros Hsrc. induction subs as [|s subs IH]; simpl.
  - apply steady_ret, copies_refl.
  - apply steady_bind; [apply copies_trans|apply steady_gets, copies_refl|].
    intros t. apply steady_bind; [apply copies_trans| |].
    + by apply sendMessageToSubscriber_copies.
    + intros [e|]; [apply steady_ret, copies_refl | apply IH].
Qed.

Lemma sendMessage_copies src topic message :
  message ∈ src → steady (copies src) (sendMessage topic message).
Proof.
  intros Hsrc. unfold sendMessage.
  apply steady_bind; [apply copies_trans|apply steady_tell|].
  { intros w. by apply copies_emit. }
  intros _. apply steady_deferred; [apply copies_trans| |].
  { intros w. by apply copies_emit. }
  apply steady_bind; [apply copies_trans|apply steady_gets, copies_refl|].
  intros [subs|]; [by apply serve_copies | apply steady_ret, copies_refl].
Qed.

Lemma deliver_copies src topic msgs :
  msgs ⊆ src → steady (copies src) (deliver topic msgs).
Proof.
  induction msgs as [|msg msgs IH]; intros Hsrc; simpl.
  - apply steady_ret, copies_refl.
  - apply steady_bind; [apply copies_trans| |].
    + apply sendMessage_copies. apply Hsrc. by left.
    + intros [e|]; [apply steady_ret, copies_refl|].
      apply IH. intros x Hx. apply Hsrc. by right.
Qed.

Lemma record_copies src topic msgs : steady (copies src) (record topic msgs).
Proof.
  unfold record.
  apply steady_bind; [apply copies_trans|apply steady_gets, copies_refl|].
  intros [|]; [|apply steady_ret, copies_refl].
  apply steady_bind; [apply copies_trans|apply steady_tell|].
  { intros w. by apply copies_emit. }
  intros _. apply steady_bind; [apply copies_trans|apply steady_modify|].
  { intros w. exists [], []. simpl. rewrite !app_nil_r.
    repeat split; [constructor | apply sublist_nil_l]. }
  intros _. apply steady_bind; [apply copies_trans|apply steady_tell|].
  { intros w. by apply copies_emit. }
  intros _. apply steady_tell. intros w. by apply copies_emit.
Qed.

Lemma replay_copies src msgs s :
  msgs ⊆ src → steady (copies src) (replay msgs s).
Proof.
  induction msgs as [|msg msgs IH]; intros Hsrc; simpl.
  - apply steady_ret, copies_refl.
  - apply steady_bind; [apply copies_trans| |].
    + apply sendMessageToSubscriber_copies. apply Hsrc. by left.
    + intros [e|]; [apply steady_throw, copies_refl|].
      apply IH. intros x Hx. apply Hsrc. by right.
Qed.

Lemma copies_pushed_fresh src w w' :
  copies src w w' →
  ∃ cs evs,
    content <$> heap w' = (content <$> heap w) ++ cs ∧
    Forall (λ c, ∃ q, q ∈ src ∧ (content <$> heap w') !! q = Some c) cs ∧
    log w' = log w ++ evs ∧
    NoDup (pushed evs) ∧
    Forall (λ p, length (heap w) ≤ p < length (heap w')) (pushed evs).
Proof.
  intros (cs & evs & Hh & Hs & Hl & Hp). exists cs, evs.
  repeat split; try done.
  - eapply sublist_NoDup; [apply NoDup_seq | exact Hp].
  - apply Forall_forall. intros p Hin.
    assert (Hseq : p ∈ seq (length (heap w)) (length cs)).
    { clear -Hp Hin. induction Hp; [done| |by right; auto].
      apply elem_of_cons in Hin as [->|Hin]; [by left | right; auto]. }
    apply elem_of_seq in Hseq.
    rewrite <- (length_fmap content (heap w')), Hh, length_app, length_fmap. lia.
Qed.

(** X3: the deliveries of a publish touch no message that existed before
    the call: the messages handed to it and the retained ones keep their
    acknowledgment state and context.  Every message instance made in
    between has the identifier, metadata and payload of a message of the
    call, and the instances pushed into the queues are such new
    instances, no instance being pushed twice: no two subscribers, and no
    two attempts, share an instance.  This holds whatever the schedule and
    the outcome. *)
Theorem Publish_pushes_fresh_copies
    (w : world) (o : list choice) (topic : string) (msgs : list ptr) :
  let w' := (Publish topic msgs w o).1.2 in
  heap w `prefix_of` heap w' ∧
  ∃ cs evs,
    content <$> heap w' = (content <$> heap w) ++ cs ∧
    Forall (λ c, ∃ q, q ∈ msgs ∧ (content <$> heap w') !! q = Some c) cs ∧
    log w' = log w ++ evs ∧
    NoDup (pushed evs) ∧
    Forall (λ p, length (heap w) ≤ p < length (heap w')) (pushed evs).
Proof.
  intros w'. subst w'. split.
  - rewrite Publish_deliver.
    destruct (recorded_frame topic msgs w) as (Hh & _).
    rewrite <- Hh. apply (deliver_extends topic msgs (recorded topic msgs w) o).
  - apply copies_pushed_fresh. unfold Publish.
    apply (steady_bind (copies msgs) (copies_trans msgs)).
    + apply record_copies.
    + intros _. by apply deliver_copies.
Qed.


(** ** Every subscriber receives every message *)

Lemma acks_app n k : acks (n + k) = acks n ++ acks k.
Proof. induction n as [|n IH]; simpl; [done|]. by rewrite IH. Qed.

Lemma give_open p c cs subs : allOpen cs subs → allOpen (give p c cs) subs.
Proof.
  intros Hall. eapply Forall_impl; [exact Hall|].
  intros s (ch & Hs & Ho). unfold give.
  destruct (cs !! c) as [ch0|] eqn:Hc; [|eauto].
  destruct (decide (c = outputChannel s)) as [->|Hne].
  - exists (mkChannel (capacity ch0) false (sent ch0 ++ [p])).
    split; [|reflexivity].
    apply list_lookup_insert_eq. by apply lookup_lt_Some in Hs.
  - exists ch. by rewrite list_lookup_insert_ne.
Qed.

(** One message to the subscribers of a list, each acking its copy. *)
Lemma serve_acked msg m subs :
  ∀ w rest,
    heap w !! msg = Some m → allOpen (chans w) subs →
    ∃ w', serve msg subs w (acks (length subs) ++ rest) = (Returned None, w', rest) ∧
          heap w' = heap w ++ replicate (length subs) (ackedCopy m) ∧
          chans w' = handOut (length (heap w)) subs (chans w) ∧
          engine w' = engine w ∧ spawned w' = spawned w.
Proof.
  induction subs as [|s subs IH]; intros w rest Hm Hopen.
  - exists w. simpl. by rewrite app_nil_r.
  - apply Forall_cons in Hopen as [(ch & Hc & Ho) Hopen].
    cbn [serve length acks app]. unfold bind, gets. cbn [fst snd].
    pose proof (sendMessageToSubscriber_rounds msg m s (sendTimeout (engine w))
                  (acks (length subs) ++ rest) 0 w ch Hm Hc Ho) as Hr.
    change ((nackRounds 0 ++ [Push; Acks]) ++ acks (length subs) ++ rest)
      with (Push :: Acks :: (acks (length subs) ++ rest)) in Hr.
    rewrite Hr. clear Hr.
    match goal with
    | |- context [serve msg subs ?w1 _] => destruct (IH w1 rest) as (w2 & -> & Hh & Hch & He & Hsp)
    end.
    + cbn [heap replicate app]. by apply lookup_app_l_Some.
    + cbn [chans].
      replace (<[outputChannel s:=_]> (chans w))
        with (give (length (heap w)) (outputChannel s) (chans w))
        by (unfold give; by rewrite Hc).
      by apply give_open.
    + exists w2. split; [reflexivity|]. simpl in Hh, Hch, He, Hsp.
      rewrite length_app, Nat.add_1_r in Hch.
      split; [by rewrite Hh, <- app_assoc|].
      split; [|done]. cbn [handOut]. unfold give. by rewrite Hc.
Qed.

Lemma handOut_open p subs cs subs' :
  allOpen cs subs' → allOpen (handOut p subs cs) subs'.
Proof.
  revert p cs. induction subs as [|s subs IH]; intros p cs Hopen; [done|].
  cbn [handOut]. by apply IH, give_open.
Qed.

Lemma sendMessage_acked topic msg m w rest :
  heap w !! msg = Some m → allOpen (chans w) (subscribersOf topic w) →
  ∃ w', sendMessage topic msg w (acks (length (subscribersOf topic w)) ++ rest)
        = (Returned None, w', rest) ∧
        heap w' = heap w ++ replicate (length (subscribersOf topic w)) (ackedCopy m) ∧
        chans w' = handOut (length (heap w)) (subscribersOf topic w) (chans w) ∧
        engine w' = engine w ∧ spawned w' = spawned w.
Proof.
  intros Hm Hopen. unfold sendMessage, bind, tell, deferred, gets.
  cbn [fst snd engine emit]. unfold subscribersOf in *.
  destruct (subscribers (engine w) !! topic) as [subs|]; simpl in Hopen |- *.
  - destruct (serve_acked msg m subs (emit (EvRLock subscribersLock) w) rest Hm Hopen)
      as (w1 & Hrun & Hh & Hch & He & Hsp).
    rewrite Hrun. eexists. split; [reflexivity|]. by simpl in *.
  - eexists. split; [reflexivity|]. simpl. by rewrite app_nil_r.
Qed.

Lemma deliver_acked topic msgs :
  ∀ ms w rest,
    Forall2 (λ p m, heap w !! p = Some m) msgs ms →
    allOpen (chans w) (subscribersOf topic w) →
    ∃ w', deliver topic msgs w
            (acks (length msgs * length (subscribersOf topic w)) ++ rest)
          = (Returned None, w', rest) ∧
          heap w' = heap w ++ flat_map (λ m, replicate (length (subscribersOf topic w))
                                               (ackedCopy m)) ms ∧
          chans w' = handOutAll (length (heap w)) (subscribersOf topic w)
                       (length msgs) (chans w) ∧
          engine w' = engine w ∧ spawned w' = spawned w.
Proof.
  induction msgs as [|msg msgs IH]; intros ms w rest Hms Hopen.
  - apply Forall2_nil_inv_l in Hms as ->. exists w. simpl. by rewrite app_nil_r.
  - apply Forall2_cons_inv_l in Hms as (m & ms' & Hm & Hms & ->).
    cbn [deliver length Nat.mul]. rewrite acks_app, <- app_assoc. unfold bind.
    destruct (sendMessage_acked topic msg m w
                (acks (length msgs * length (subscribersOf topic w)) ++ rest) Hm Hopen)
      as (w1 & -> & Hh1 & Hch1 & He1 & Hsp1).
    assert (Hsubs : subscribersOf topic w1 = subscribersOf topic w)
      by (unfold subscribersOf; by rewrite He1).
    destruct (IH ms' w1 rest) as (w2 & Hrun & Hh2 & Hch2 & He2 & Hsp2).
    + eapply Forall2_impl; [exact Hms|]. intros p m' Hp. rewrite Hh1.
      by apply lookup_app_l_Some.
    + rewrite Hsubs, Hch1. by apply handOut_open.
    + rewrite Hsubs in Hrun, Hh2, Hch2. rewrite Hrun. exists w2.
      split; [reflexivity|].
      rewrite Hh2, Hch2, He2, Hsp2, Hh1, Hch1, He1, Hsp1.
      rewrite length_app, length_replicate, <- app_assoc. by cbn.
Qed.

Lemma give_lookup_ne p c c' cs : c ≠ c' → give p c cs !! c' = cs !! c'.
Proof.
  intros Hne. unfold give. destruct (cs !! c); [|done].
  by rewrite list_lookup_insert_ne.
Qed.

Lemma handOut_lookup_other p subs cs c :
  c ∉ channels subs → handOut p subs cs !! c = cs !! c.
Proof.
  revert p cs. induction subs as [|s subs IH]; intros p cs Hc; [done|].
  apply not_elem_of_cons in Hc as [Hne Hc].
  cbn [handOut]. rewrite IH by done. by apply give_lookup_ne.
Qed.

Lemma handOut_lookup p subs cs j s ch :
  NoDup (channels subs) → subs !! j = Some s →
  cs !! outputChannel s = Some ch →
  handOut p subs cs !! outputChannel s
  = Some (mkChannel (capacity ch) false (sent ch ++ [p + j])).
Proof.
  revert p cs j. induction subs as [|s0 subs IH]; intros p cs j Hdup Hj Hc; [done|].
  apply NoDup_cons in Hdup as [Hnotin Hdup]. cbn [handOut].
  destruct j as [|j]; simpl in Hj.
  - injection Hj as ->. rewrite handOut_lookup_other by done.
    unfold give. rewrite Hc, Nat.add_0_r.
    apply list_lookup_insert_eq. by apply lookup_lt_Some in Hc.
  - assert (Hne : outputChannel s0 ≠ outputChannel s).
    { intros Heq. apply Hnotin. rewrite Heq.
      apply list_elem_of_fmap_2. by eapply list_elem_of_lookup_2. }
    rewrite (IH (S p) (give p (outputChannel s0) cs) j Hdup Hj).
    + by rewrite Nat.add_succ_r.
    + by rewrite give_lookup_ne.
Qed.

Lemma handOutAll_lookup subs j s :
  NoDup (channels subs) → subs !! j = Some s →
  ∀ k p cs ch, cs !! outputChannel s = Some ch → chClosed ch = false →
    handOutAll p subs k cs !! outputChannel s
    = Some (mkChannel (capacity ch) false
              (sent ch ++ ((λ i, p + i * length subs + j) <$> seq 0 k))).
Proof.
  intros Hdup Hj. induction k as [|k IH]; intros p cs ch Hc Ho.
  - simpl. rewrite app_nil_r, Hc. f_equal. destruct ch; simpl in *. by subst.
  - cbn [handOutAll].
    rewrite (IH _ _ _ (handOut_lookup p subs cs j s ch Hdup Hj Hc) eq_refl).
    cbn [capacity sent seq fmap list_fmap]. rewrite <- app_assoc. do 3 f_equal.
    simpl. f_equal; [lia|].
    rewrite <- fmap_S_seq, <- list_fmap_compose.
    apply list_fmap_ext. intros i x _. simpl. lia.
Qed.

Lemma flat_map_replicate_lookup {A B} (f : A → B) n (ms : list A) i j m :
  ms !! i = Some m → j < n →
  flat_map (λ m, replicate n (f m)) ms !! (i * n + j) = Some (f m).
Proof.
  revert i. induction ms as [|m0 ms IH]; intros i Hi Hj; [done|].
  cbn [flat_map]. destruct i as [|i]; simpl in Hi.
  - injection Hi as ->. rewrite lookup_app_l by (rewrite length_replicate; lia).
    by apply lookup_replicate_2.
  - rewrite lookup_app_r by (rewrite length_replicate; lia).
    rewrite length_replicate.
    replace (S i * n + j - n) with (i * n + j) by lia. by apply IH.
Qed.

(** X4: with every copy taken and acked, a publish hands to every
    subscriber registered on the topic its own copy of every message, in
    the order of the call: the subscriber at position [j] of [n] receives,
    after what its queue had seen, the instances [p0 + i * n + j] for the
    messages [i = 0, 1, ...], and that instance is the acked copy of
    message [i].  The publish then returns nil. *)
Theorem every_subscriber_receives_every_message
    (w : world) (topic : string) (msgs : list ptr) (ms : list Message)
    (rest : list choice)
    (Hms : Forall2 (λ p m, heap w !! p = Some m) msgs ms)
    (Hopen : allOpen (chans w) (subscribersOf topic w))
    (Hdup : NoDup (channels (subscribersOf topic w))) :
  let subs := subscribersOf topic w in
  let n := length subs in
  let p0 := length (heap w) in
  ∃ w', Publish topic msgs w (acks (length msgs * n) ++ rest)
        = (Returned None, w', rest) ∧
    heap w' = heap w ++ flat_map (λ m, replicate n (ackedCopy m)) ms ∧
    (∀ j s ch, subs !! j = Some s → chans w !! outputChannel s = Some ch →
       chans w' !! outputChannel s
       = Some (mkChannel (capacity ch) false
                 (sent ch ++ ((λ i, p0 + i * n + j) <$> seq 0 (length msgs))))) ∧
    (∀ i j m, ms !! i = Some m → j < n →
       heap w' !! (p0 + i * n + j) = Some (ackedCopy m)).
Proof.
  intros subs n p0. subst subs n p0. rewrite Publish_deliver.
  destruct (recorded_frame topic msgs w) as (Hh & Hch & _ & _ & Hs & _).
  assert (Hsubs : subscribersOf topic (recorded topic msgs w) = subscribersOf topic w)
    by (unfold subscribersOf; by rewrite Hs).
  destruct (deliver_acked topic msgs ms (recorded topic msgs w) rest)
    as (w' & Hrun & Hh' & Hch' & _).
  { by rewrite Hh. }
  { by rewrite Hsubs, Hch. }
  rewrite Hsubs, Hh, ?Hch in *. exists w'. split; [exact Hrun|].
  split; [exact Hh'|]. split.
  - intros j s ch Hj Hc. rewrite Hch'.
    apply (handOutAll_lookup _ j s Hdup Hj); [exact Hc|].
    apply Forall_forall with (x := s) in Hopen as (ch' & Hc' & Ho').
    + congruence.
    + by eapply list_elem_of_lookup_2.
  - intros i j m Hi Hj. rewrite Hh', <- Nat.add_assoc.
    rewrite lookup_app_r by lia.
    replace (length (heap w) + (i * length (subscribersOf topic w) + j)
             - length (heap w))
      with (i * length (subscribersOf topic w) + j) by lia.
    by apply flat_map_replicate_lookup.
Qed.

Lemma every_subscriber_receives_every_message_witness :
  Forall2 (λ p m, heap (demo3 (NewGoChannel 1 10)) !! p = Some m)
    [0; 0] [NewMessage "m1" "hello"; NewMessage "m1" "hello"] ∧
  chans (Publish "orders" [0; 0] (demo3 (NewGoChannel 1 10)) (acks (2 * 3))).1.2 !! 1
  = Some (mkChannel 1 false [2; 5]).
Proof.
  assert (Hms : Forall2 (λ p m, heap (demo3 (NewGoChannel 1 10)) !! p = Some m)
                  [0; 0] [NewMessage "m1" "hello"; NewMessage "m1" "hello"])
    by (repeat constructor).
  assert (Hopen : allOpen (chans (demo3 (NewGoChannel 1 10)))
                    (subscribersOf "orders" (demo3 (NewGoChannel 1 10)))).
  { vm_compute. repeat constructor; eexists; split; reflexivity. }
  assert (Hdup : NoDup (channels (subscribersOf "orders" (demo3 (NewGoChannel 1 10))))).
  { vm_compute. apply (NoDup_seq 0 3). }
  split; [exact Hms|].
  destruct (every_subscriber_receives_every_message (demo3 (NewGoChannel 1 10))
              "orders" [0; 0] _ [] Hms Hopen Hdup) as (w' & Hrun & _ & Hq & _).
  rewrite app_nil_r in Hrun.
  change (length [0; 0] * length (subscribersOf "orders" (demo3 (NewGoChannel 1 10))))
    with (2 * 3) in Hrun.
  rewrite Hrun.
  exact (Hq 1 (mkSubscriber "s2" 1) (mkChannel 1 false []) eq_refl eq_refl).
Defined.

(** ** Replay *)



Lemma retained_length_acks msgs : ackEach msgs = acks (length msgs).
Proof. induction msgs as [|m msgs IH]; simpl; [done|]. by rewrite <- IH. Qed.





(** ** A topic without subscriber *)




(** ** The states a program can reach *)

Lemma runGoroutine_oldest w o : runGoroutine w o = runGoroutineAt 0 w o.
Proof.
  unfold runGoroutine, runGoroutineAt. destruct (spawned w) as [|[topic s] rest]; done.
Qed.

Lemma extends_flags w w' : extends w w' → flags w' = flags w.
Proof.
  intros [_ _ _ Hc _]. unfold flags.
  induction Hc as [|ch ch' cs cs' (_ & Hcl & _) _ IH]; [done|].
  rewrite !fmap_cons. by f_equal.
Qed.

Lemma wellFormed_same w w' :
  wellFormed w →
  subscribers (engine w') = subscribers (engine w) →
  spawned w' = spawned w →
  closed (engine w') = closed (engine w) →
  closing (engine w') = closing (engine w) →
  flags w' = flags w →
  wellFormed w'.
Proof.
  unfold wellFormed, queues, registeredQueues, allSubscribers.
  intros Hw Hs Hsp Hcd Hcg Hf. by rewrite Hs, Hsp, Hcd, Hcg, Hf.
Qed.

Lemma allSubscribers_append topic s g :
  allSubscribers (appendSubscriber topic s g) ≡ₚ allSubscribers g ++ [s].
Proof.
  unfold allSubscribers, appendSubscriber. cbn [subscribers setSubscribers].
  destruct (subscribers g !! topic) as [old|] eqn:Hold.
  - rewrite Hold. cbn [default].
    rewrite <- (insert_delete_eq (subscribers g)).
    rewrite map_to_list_insert by apply lookup_delete_eq.
    rewrite <- (insert_delete_id (subscribers g) topic old Hold) at 2.
    rewrite (map_to_list_insert (delete topic (subscribers g)))
      by apply lookup_delete_eq.
    simpl. rewrite <- !app_assoc. apply Permutation_app_head, Permutation_app_comm.
  - rewrite lookup_insert_eq. cbn [default app]. rewrite insert_insert_eq.
    rewrite map_to_list_insert by exact Hold.
    simpl. apply Permutation_cons_append.
Qed.

Lemma Close_shape :
  steady (λ w w', spawned w' = spawned w ∧ length (flags w') = length (flags w)) Close.
Proof.
  set (R := λ w w' : world,
         spawned w' = spawned w ∧ length (flags w') = length (flags w)).
  assert (Ht : ∀ w1 w2 w3, R w1 w2 → R w2 w3 → R w1 w3)
    by (unfold R; intros w1 w2 w3 [-> ->] [-> ->]; done).
  assert (Hr : ∀ w, R w w) by done.
  assert (He : ∀ e w, R w (emit e w)) by done.
  assert (Hg : ∀ f w, R w (setEngine f w)) by done.
  assert (Hall : ∀ subs, steady R (closeAll subs)).
  { induction subs as [|s subs IH]; simpl; [apply steady_ret, Hr|].
    apply steady_bind; [exact Ht| |intros _; exact IH].
    intros w o. unfold closeChan, R.
    destruct (chans w !! outputChannel s) as [ch|]; [|done].
    destruct (chClosed ch); [done|]. simpl. split; [done|].
    unfold flags. simpl. by rewrite !length_fmap, length_insert. }
  assert (Hnow : steady R closeNow); cycle 1.
  { intros w o. unfold Close. destruct (closed (engine w)); [apply Hr|apply Hnow]. }
  unfold closeNow.
  apply steady_bind; [exact Ht|apply steady_modify; intros w; apply Hg|].
  intros _. apply steady_bind; [exact Ht| |].
  - apply steady_bind; [exact Ht|apply steady_gets, Hr|].
    intros [|]; [apply steady_throw, Hr|].
    apply steady_bind; [exact Ht|apply steady_modify; intros w; apply Hg|].
    intros _. apply steady_tell, He.
  - intros _. apply steady_bind; [exact Ht|apply steady_tell, He|].
    intros _. apply steady_deferred; [exact Ht|apply He|].
    apply steady_bind; [exact Ht|apply steady_gets, Hr|].
    intros subs. apply steady_bind; [exact Ht|apply Hall|].
    intros _. apply steady_ret, Hr.
Qed.

Lemma Publish_frame topic msgs w o :
  subscribers (engine (Publish topic msgs w o).1.2) = subscribers (engine w) ∧
  spawned (Publish topic msgs w o).1.2 = spawned w ∧
  closed (engine (Publish topic msgs w o).1.2) = closed (engine w) ∧
  closing (engine (Publish topic msgs w o).1.2) = closing (engine w) ∧
  flags (Publish topic msgs w o).1.2 = flags w.
Proof.
  rewrite Publish_deliver.
  pose proof (deliver_extends topic msgs (recorded topic msgs w) o) as Hext.
  destruct (recorded_frame topic msgs w) as (_ & Hc & Hsp & _ & Hs & Hcd & Hcg & _).
  rewrite (extends_flags _ _ Hext), (ext_engine _ _ Hext), (ext_spawned _ _ Hext).
  unfold flags. by rewrite Hc.
Qed.

Lemma Forall_sublist {A} (P : A → Prop) (l k : list A) :
  l `sublist_of` k → Forall P k → Forall P l.
Proof.
  induction 1 as [|x l k _ IH|x l k _ IH]; intros Hk; [done| |].
  - apply Forall_cons in Hk as [Hx Hk]. constructor; auto.
  - apply Forall_cons in Hk as [_ Hk]. auto.
Qed.

Lemma wellFormed_fewer w w' :
  wellFormed w →
  subscribers (engine w') = subscribers (engine w) →
  spawned w' `sublist_of` spawned w →
  closed (engine w') = closed (engine w) →
  closing (engine w') = closing (engine w) →
  flags w' = flags w →
  wellFormed w'.
Proof.
  unfold wellFormed, queues, registeredQueues, allSubscribers, channels.
  intros (Hnd & Hin & Hop) Hs Hsp Hcd Hcg Hf. rewrite Hs, Hcd, Hcg, Hf.
  set (rs := outputChannel <$> flat_map snd (map_to_list (subscribers (engine w)))) in *.
  assert (Hsub : rs ++ (outputChannel <$> (spawned w').*2)
                 `sublist_of` rs ++ (outputChannel <$> (spawned w).*2)).
  { apply sublist_app; [done|]. by do 2 apply fmap_sublist. }
  split; [by eapply sublist_NoDup|]. split; [by eapply Forall_sublist|done].
Qed.

Lemma wellFormed_registered topic s i w w1 :
  wellFormed w → spawned w !! i = Some (topic, s) →
  extends (emit (EvRLock messagesMutex) (setSpawned (delete i (spawned w)) w)) w1 →
  wellFormed (registered topic s w1).
Proof.
  intros (Hnd & Hin & Hop) Hi Hext.
  pose proof (extends_flags _ _ Hext) as Hf.
  pose proof (ext_engine _ _ Hext) as He.
  pose proof (ext_spawned _ _ Hext) as Hsp.
  cbn [engine spawned emit setSpawned] in He, Hsp.
  change (flags (emit (EvRLock messagesMutex) (setSpawned (delete i (spawned w)) w)))
    with (flags w) in Hf.
  assert (Hq : queues (registered topic s w1) ≡ₚ queues w).
  { unfold queues, registeredQueues, registered, channels.
    cbn [engine spawned emit setEngine]. rewrite He, Hsp.
    rewrite allSubscribers_append.
    rewrite (delete_Permutation (spawned w) i (topic, s) Hi) at 2.
    rewrite !fmap_app, !fmap_cons. cbn [snd fmap list_fmap].
    rewrite <- app_assoc. apply Permutation_app_head. done. }
  unfold wellFormed. rewrite Hq.
  change (flags (registered topic s w1)) with (flags w1). rewrite Hf.
  split; [exact Hnd|]. split; [exact Hin|].
  unfold registered. cbn [engine emit setEngine]. unfold appendSubscriber.
  cbn [closed closing setSubscribers]. by rewrite He.
Qed.

Lemma wellFormed_perform c o w : wellFormed w → wellFormed (perform c o w).
Proof.
  intros Hw. destruct c as [u payload|topic msgs|topic u|i|]; cbn [perform].
  - by apply (wellFormed_same w).
  - destruct (Publish_frame topic msgs w o) as (Hs & Hsp & Hcd & Hcg & Hf).
    by apply (wellFormed_same w).
  - unfold Subscribe. destruct (outputChannelBuffer (engine w) <? 0)%Z; [exact Hw|].
    destruct Hw as (Hnd & Hin & Hop). cbn [fst snd].
    unfold wellFormed, queues, registeredQueues, flags, channels in *.
    cbn [engine spawned chans emit setSpawned setChans].
    rewrite !fmap_app, !length_app, !length_fmap in *. cbn [fmap list_fmap length snd outputChannel].
    split; [|split].
    + rewrite app_assoc. apply NoDup_app. split; [exact Hnd|]. split.
      * intros c Hc ->%list_elem_of_singleton.
        rewrite Forall_forall in Hin. specialize (Hin _ Hc). lia.
      * apply NoDup_singleton.
    + rewrite app_assoc. apply Forall_app. split.
      * eapply Forall_impl; [exact Hin|]. intros c Hc. simpl in Hc. lia.
      * constructor; [lia|constructor].
    + destruct (closed (engine w)); [done|]. destruct Hop as [Hcg Hop].
      split; [done|]. apply Forall_app. split; [exact Hop|]. by repeat constructor.
  - unfold runGoroutineAt.
    destruct (spawned w !! i) as [[topic s]|] eqn:Hi; [|exact Hw].
    rewrite subscribeRoutine_run.
    pose proof (replayRetained_extends topic s
                  (emit (EvRLock messagesMutex) (setSpawned (delete i (spawned w)) w)) o)
      as Hext.
    destruct (replayRetained topic s
                (emit (EvRLock messagesMutex) (setSpawned (delete i (spawned w)) w)) o)
      as [[r w1] o1]. cbn [fst snd] in Hext.
    assert (Hw1 : wellFormed w1).
    { apply (wellFormed_fewer w); [exact Hw|..].
      - by rewrite (ext_engine _ _ Hext).
      - rewrite (ext_spawned _ _ Hext). apply sublist_delete.
      - by rewrite (ext_engine _ _ Hext).
      - by rewrite (ext_engine _ _ Hext).
      - by rewrite (extends_flags _ _ Hext). }
    destruct r as [[]| | |]; cbn [fst snd]; try exact Hw1.
    exact (wellFormed_registered topic s i w w1 Hw Hi Hext).
  - pose proof (Close_closed w o) as Hcd.
    pose proof (Close_keeps subscribers (λ _ _, eq_refl) (λ _ _, eq_refl) w o) as Hs.
    destruct (Close_shape w o) as [Hsp Hlen].
    unfold Close in *. destruct (closed (engine w)) eqn:Hc; [exact Hw|].
    destruct Hw as (Hnd & Hin & _). unfold keeps in Hs.
    unfold wellFormed, queues, registeredQueues, allSubscribers in *.
    rewrite Hs, Hsp, Hlen, Hcd. done.
Qed.

Lemma wellFormed_history cs : ∀ w, wellFormed w → wellFormed (history cs w).
Proof.
  induction cs as [|[c o] cs IH]; intros w Hw; [exact Hw|].
  apply IH. by apply wellFormed_perform.
Qed.

Lemma wellFormed_reachable w : reachable w → wellFormed w.
Proof.
  intros (p & b & t & cs & ->). apply wellFormed_history.
  unfold wellFormed, queues, registeredQueues, allSubscribers, flags, channels.
  destruct p; cbn; rewrite map_to_list_empty; cbn;
    (split; [apply NoDup_nil_2|split; [constructor|split; [done|constructor]]]).
Qed.

Lemma reachable_perform c o w : reachable w → reachable (perform c o w).
Proof.
  intros (p & b & t & cs & ->). exists p, b, t, (cs ++ [(c, o)]).
  unfold history. by rewrite foldl_app.
Qed.


(** ** Panics *)

Lemma sendLoop_safe msg s t o :
  ∀ ds w p, is_Some (heap w !! msg) →
    Forall (λ ch, chClosed ch = false) (chans w) →
    (sendLoop msg s t ds o w).1.1 ≠ Panicked p.
Proof.
  induction o as [|c|c1 c2 o IH] using schedule_ind; intros ds w p [m Hm] Hop;
    cbn [sendLoop]; rewrite Hm; loop_cases; try done;
    try (exfalso;
         match goal with
         | Hc : chans w !! _ = Some ?ch, Hb : chClosed ?ch = true |- _ =>
             rewrite Forall_forall in Hop;
             specialize (Hop ch (list_elem_of_lookup_2 _ _ _ Hc)); congruence
         end).
  apply IH.
  - exists m. cbn [heap emit signal setHeap pushTo setChans].
    rewrite list_lookup_alter_ne by (apply lookup_lt_Some in Hm; lia).
    by apply lookup_app_l_Some.
  - cbn [chans emit signal setHeap pushTo setChans].
    apply Forall_insert; [exact Hop|]. cbn [chClosed].
    match goal with
    | Hc : chans w !! _ = Some ?ch |- _ =>
        rewrite Forall_forall in Hop;
        exact (Hop ch (list_elem_of_lookup_2 _ _ _ Hc))
    end.
Qed.

Lemma extends_sound msgs w w' : extends w w' → sound msgs w → sound msgs w'.
Proof.
  intros Hext [Ha Hf]. split; [by eapply allocated_extends|].
  by rewrite (extends_flags _ _ Hext).
Qed.

Lemma sound_open msgs w :
  sound msgs w → Forall (λ ch, chClosed ch = false) (chans w).
Proof. intros [_ Hf]. unfold flags in Hf. by apply Forall_fmap in Hf. Qed.

Lemma serve_safe msg subs : safe (sound [msg]) (serve msg subs).
Proof.
  induction subs as [|s subs IH]; intros w o p Hw; [done|].
  cbn [serve]. unfold bind, gets. cbn [fst snd].
  pose proof (sendMessageToSubscriber_extends msg s (sendTimeout (engine w)) w o)
    as Hext.
  pose proof (sendLoop_safe msg s (sendTimeout (engine w)) o [] w) as Hsafe.
  unfold sendMessageToSubscriber in *.
  destruct (sendLoop msg s (sendTimeout (engine w)) [] o w)
    as [[[[e|]|q| |] w1] o1]; cbn [fst snd] in *; try done.
  - apply IH. by eapply extends_sound.
  - exfalso. apply (Hsafe q); [|exact (sound_open _ _ Hw)|reflexivity].
    destruct Hw as [Ha _]. exact (Forall_inv Ha).
Qed.

Lemma sendMessage_safe topic msg : safe (sound [msg]) (sendMessage topic msg).
Proof.
  intros w o p Hw. unfold sendMessage, bind, tell, deferred, gets.
  cbn [fst snd engine emit].
  destruct (subscribers (engine w) !! topic) as [subs|]; [|done].
  pose proof (serve_safe msg subs (emit (EvRLock subscribersLock) w) o) as Hsafe.
  destruct (serve msg subs (emit (EvRLock subscribersLock) w) o)
    as [[[e|q| |] w1] o1]; cbn [fst snd] in *; try done.
  exfalso. by apply (Hsafe q).
Qed.

Lemma deliver_safe topic msgs : safe (sound msgs) (deliver topic msgs).
Proof.
  induction msgs as [|msg msgs IH]; intros w o p Hw; [done|].
  cbn [deliver]. unfold bind.
  pose proof (sendMessage_extends topic msg w o) as Hext.
  pose proof (sendMessage_safe topic msg w o) as Hsafe.
  destruct Hw as [Ha Hf]. apply Forall_cons in Ha as [Hmsg Ha].
  destruct (sendMessage topic msg w o) as [[[[e|]|q| |] w1] o1];
    cbn [fst snd] in *; try done.
  - apply IH. by eapply (extends_sound msgs w).
  - exfalso. apply (Hsafe q); [|reflexivity]. split; [|done].
    by apply Forall_cons.
Qed.

(** X7: as long as [Close] has not been called, no publish of allocated
    messages panics, in any state a program can bring the engine to and
    under any schedule of its waits. *)
Theorem Publish_never_panics_before_Close
    (w : world) (o : list choice) (topic : string) (msgs : list ptr)
    (Hr : reachable w) (Hc : closed (engine w) = false)
    (Hm : allocated w msgs) :
  ∀ p, (Publish topic msgs w o).1.1 ≠ Panicked p.
Proof.
  intros p. rewrite Publish_deliver. apply deliver_safe.
  destruct (recorded_frame topic msgs w) as (Hh & Hch & _).
  apply wellFormed_reachable in Hr as (_ & _ & Hop). rewrite Hc in Hop.
  split.
  - unfold allocated in *. by rewrite Hh.
  - unfold flags. rewrite Hch. apply Hop.
Qed.

Lemma Publish_never_panics_before_Close_witness :
  reachable (demo3 (NewGoChannel 1 10)) ∧
  closed (engine (demo3 (NewGoChannel 1 10))) = false ∧
  allocated (demo3 (NewGoChannel 1 10)) [0; 0] ∧
  (Publish "orders" [0; 0] (demo3 (NewGoChannel 1 10)) [Push; Nacks; Push])
    .1.1 ≠ Panicked SendOnClosedChannel.
Proof.
  assert (Hr : reachable (demo3 (NewGoChannel 1 10))).
  { exists false, 1%Z, 10%Z,
      [(DoNewMessage "m1" "hello", []);
       (DoSubscribe "orders" "s1", []); (DoGoroutine 0, []);
       (DoSubscribe "orders" "s2", []); (DoGoroutine 0, []);
       (DoSubscribe "orders" "s3", []); (DoGoroutine 0, [])].
    vm_compute. reflexivity. }
  assert (Ha : allocated (demo3 (NewGoChannel 1 10)) [0; 0]).
  { assert (H0 : is_Some (heap (demo3 (NewGoChannel 1 10)) !! 0))
      by (exists (NewMessage "m1" "hello"); vm_compute; reflexivity).
    repeat (apply Forall_cons_2; [exact H0|]). apply Forall_nil_2. }
  split; [exact Hr|]. split; [reflexivity|]. split; [exact Ha|].
  exact (Publish_never_panics_before_Close _ [Push; Nacks; Push] "orders" [0; 0]
           Hr eq_refl Ha SendOnClosedChannel).
Defined.

(** ** Close *)

Lemma closeAll_run subs :
  ∀ w o, NoDup (channels subs) →
    Forall (λ c, ∃ ch, chans w !! c = Some ch ∧ chClosed ch = false) (channels subs) →
    ∃ w', closeAll subs w o = (Returned tt, w', o) ∧
          heap w' = heap w ∧ engine w' = engine w ∧ spawned w' = spawned w ∧
          log w' = log w ++ (EvClose <$> channels subs) ∧
          ∀ c : chan, chans w' !! c =
               (λ ch, if bool_decide (c ∈ channels subs)
                      then mkChannel (capacity ch) true (sent ch) else ch)
               <$> chans w !! c.
Proof.
  induction subs as [|s subs IH]; intros w o Hnd Hop.
  - exists w. simpl. rewrite app_nil_r. repeat split; try done.
    intros c. by destruct (chans w !! c).
  - unfold channels in *. rewrite fmap_cons in Hnd, Hop.
    apply NoDup_cons in Hnd as [Hs Hnd].
    apply Forall_cons in Hop as [(ch & Hch & Hopen) Hop].
    cbn [closeAll]. unfold bind.
    assert (Hcl : closeChan (outputChannel s) w o
                  = (Returned tt,
                     emit (EvClose (outputChannel s))
                       (setChans (<[outputChannel s :=
                                      mkChannel (capacity ch) true (sent ch)]> (chans w)) w),
                     o)).
    { unfold closeChan. by rewrite Hch, Hopen. }
    rewrite Hcl. clear Hcl.
    match goal with
    | |- context [closeAll subs ?w1 o] =>
        destruct (IH w1 o Hnd) as (w' & -> & Hh & He & Hsp & Hl & Hcs)
    end.
    { eapply Forall_impl.
      - apply Forall_forall. intros c Hc. exact (conj Hc (proj1 (Forall_forall _ _) Hop c Hc)).
      - intros c [Hc (ch' & Hch' & Hopen')]. exists ch'. split; [|done]. simpl.
        rewrite list_lookup_insert_ne; [done|]. intros <-. done. }
    exists w'. split; [reflexivity|]. simpl in Hh, He, Hsp, Hl, Hcs.
    rewrite Hl, <- app_assoc. repeat split; try done.
    intros c. rewrite Hcs. rewrite fmap_cons.
    destruct (decide (c = outputChannel s)) as [->|Hne].
    + rewrite list_lookup_insert_eq by (by apply lookup_lt_Some in Hch).
      rewrite Hch. simpl.
      rewrite (bool_decide_eq_false_2 _ Hs).
      rewrite bool_decide_eq_true_2 by apply list_elem_of_here. reflexivity.
    + rewrite list_lookup_insert_ne by done. unfold chan in *.
      destruct (chans w !! c) as [ch'|]; [|done]. simpl. f_equal.
      destruct (decide (c ∈ outputChannel <$> subs)) as [Hin|Hnin].
      * rewrite !bool_decide_eq_true_2; [done| |done]. by apply list_elem_of_further.
      * rewrite !bool_decide_eq_false_2; [done| |done].
        by intros [?|?]%elem_of_cons.
Qed.

(** X8: the first [Close], in any state a program can bring the engine
    to, returns nil and waits in no [select]: it sets both flags and
    closes the queue of every registered subscriber, each once.  What was pushed
    stays in the queues; the queues of the subscriptions whose goroutine
    has not registered them yet stay open. *)
Theorem first_Close_closes_the_registered_queues
    (w : world) (o : list choice)
    (Hr : reachable w) (Hc : closed (engine w) = false) :
  ∃ w', Close w o = (Returned None, w', o) ∧
    closed (engine w') = true ∧ closing (engine w') = true ∧
    subscribers (engine w') = subscribers (engine w) ∧
    messages (engine w') = messages (engine w) ∧
    heap w' = heap w ∧ spawned w' = spawned w ∧
    NoDup (registeredQueues w) ∧
    log w' = log w ++ [EvCloseClosing; EvLock subscribersLock]
               ++ (EvClose <$> registeredQueues w) ++ [EvUnlock subscribersLock] ∧
    ∀ c : chan, chans w' !! c =
         (λ ch, mkChannel (capacity ch) (bool_decide (c ∈ registeredQueues w)) (sent ch))
         <$> chans w !! c.
Proof.
  apply wellFormed_reachable in Hr as (Hnd & Hin & Hop). rewrite Hc in Hop.
  destruct Hop as [Hcg Hop]. unfold queues in *.
  apply NoDup_app in Hnd as (Hnd & _ & _). apply Forall_app in Hin as [Hin _].
  unfold Close. rewrite Hc. unfold closeNow, bind, modify, gets, tell, deferred, throw.
  cbn [fst snd engine emit setEngine closing setClosed]. rewrite Hcg.
  cbn [fst snd engine emit setEngine].
  change (allSubscribers (setClosing true (setClosed true (engine w))))
    with (allSubscribers (engine w)).
  match goal with
  | |- context [closeAll _ ?w1 o] =>
      destruct (closeAll_run (allSubscribers (engine w)) w1 o Hnd)
        as (w' & Hrun & Hh & He & Hsp & Hl & Hcs)
  end.
  { cbn [chans emit setEngine]. eapply Forall_impl; [exact Hin|].
    intros c Hc'. cbn beta in Hc'. unfold flags in Hc'. rewrite length_fmap in Hc'.
    destruct (lookup_lt_is_Some_2 _ _ Hc') as [ch Hch]. exists ch. split; [done|].
    unfold flags in Hop. rewrite Forall_fmap, Forall_forall in Hop.
    exact (Hop ch (list_elem_of_lookup_2 _ _ _ Hch)). }
  rewrite Hrun. cbn [fst snd ret]. eexists. split; [reflexivity|].
  cbn [engine heap spawned log chans emit setEngine] in *.
  rewrite He, Hh, Hsp, Hl. cbn [closed closing subscribers messages setClosing setClosed].
  repeat split; try done.
  - by rewrite <- !app_assoc.
  - intros c. rewrite Hcs. destruct (chans w !! c) as [ch|] eqn:Hch; [|done].
    simpl. f_equal. unfold registeredQueues.
    unfold flags in Hop. rewrite Forall_fmap, Forall_forall in Hop.
    pose proof (Hop ch (list_elem_of_lookup_2 _ _ _ Hch)) as Hopen. simpl in Hopen.
    destruct ch as [cap cl q]. simpl in *. subst cl.
    by destruct (bool_decide _).
Qed.

Lemma first_Close_closes_the_registered_queues_witness :
  reachable (Subscribe "orders" "s4" (demo3 (NewGoChannel 1 10)) []).1.2 ∧
  closed (engine (Subscribe "orders" "s4" (demo3 (NewGoChannel 1 10)) []).1.2) = false ∧
  (Close (Subscribe "orders" "s4" (demo3 (NewGoChannel 1 10)) []).1.2 []).1.1
  = Returned None.
Proof.
  assert (Hr : reachable (Subscribe "orders" "s4" (demo3 (NewGoChannel 1 10)) []).1.2).
  { exists false, 1%Z, 10%Z,
      [(DoNewMessage "m1" "hello", []);
       (DoSubscribe "orders" "s1", []); (DoGoroutine 0, []);
       (DoSubscribe "orders" "s2", []); (DoGoroutine 0, []);
       (DoSubscribe "orders" "s3", []); (DoGoroutine 0, []);
       (DoSubscribe "orders" "s4", [])].
    vm_compute. reflexivity. }
  split; [exact Hr|]. split; [reflexivity|].
  destruct (first_Close_closes_the_registered_queues _ [] Hr eq_refl)
    as (w' & Hrun & _).
  by rewrite Hrun.
Defined.

Lemma runGoroutineAt_frame i w o :
  closed (engine (runGoroutineAt i w o).1.2) = closed (engine w) ∧
  closing (engine (runGoroutineAt i w o).1.2) = closing (engine w) ∧
  flags (runGoroutineAt i w o).1.2 = flags w.
Proof.
  unfold runGoroutineAt. destruct (spawned w !! i) as [[topic s]|]; [|done].
  rewrite subscribeRoutine_run.
  pose proof (replayRetained_extends topic s
                (emit (EvRLock messagesMutex) (setSpawned (delete i (spawned w)) w)) o)
    as Hext.
  destruct (replayRetained topic s
              (emit (EvRLock messagesMutex) (setSpawned (delete i (spawned w)) w)) o)
    as [[r w1] o1]. cbn [fst snd] in Hext.
  pose proof (extends_flags _ _ Hext) as Hf.
  pose proof (ext_engine _ _ Hext) as He.
  cbn [engine emit setSpawned] in He.
  change (flags (emit (EvRLock messagesMutex) (setSpawned (delete i (spawned w)) w)))
    with (flags w) in Hf.
  destruct r as [[]| | |]; cbn [fst snd]; rewrite <- ?He; done.
Qed.

(** X9: [Close] is the only call that closes queues, and it does so only
    the first time.  Once the closed flag is set, whatever the program
    does next, the queues that exist keep their state and every queue a
    later [Subscribe] hands out stays open for ever: no later [Close]
    closes it. *)
Theorem no_queue_is_closed_after_Close
    (w : world) (cs : list (call * list choice))
    (Hc : closed (engine w) = true) :
  closed (engine (history cs w)) = true ∧
  ∃ k, flags (history cs w) = flags w ++ replicate k false.
Proof.
  revert w Hc. induction cs as [|[c o] cs IH]; intros w Hc.
  - split; [exact Hc|]. exists 0. by rewrite app_nil_r.
  - assert (Hstep : closed (engine (perform c o w)) = true ∧
                    ∃ k, flags (perform c o w) = flags w ++ replicate k false).
    { destruct c as [u payload|topic msgs|topic u|i|]; cbn [perform].
      - split; [exact Hc|]. exists 0. by rewrite app_nil_r.
      - destruct (Publish_frame topic msgs w o) as (_ & _ & Hcd & _ & Hf).
        rewrite Hcd, Hf. split; [exact Hc|]. exists 0. by rewrite app_nil_r.
      - unfold Subscribe. destruct (outputChannelBuffer (engine w) <? 0)%Z.
        + split; [exact Hc|]. exists 0. by rewrite app_nil_r.
        + split; [exact Hc|]. exists 1. unfold flags. cbn [fst snd chans emit setSpawned setChans].
          by rewrite fmap_app.
      - destruct (runGoroutineAt_frame i w o) as (Hcd & _ & Hf).
        rewrite Hcd, Hf. split; [exact Hc|]. exists 0. by rewrite app_nil_r.
      - unfold Close. rewrite Hc. split; [exact Hc|]. exists 0. by rewrite app_nil_r. }
    destruct Hstep as [Hc1 [k1 Hf1]].
    destruct (IH (perform c o w) Hc1) as [Hc2 [k2 Hf2]].
    split; [exact Hc2|]. exists (k1 + k2). cbn [history foldl fst snd].
    change (foldl (λ w c, perform c.1 c.2 w) (perform c o w) cs)
      with (history cs (perform c o w)).
    by rewrite Hf2, Hf1, <- app_assoc, replicate_add.
Qed.

Lemma no_queue_is_closed_after_Close_witness :
  closed (engine (Close (demo (NewGoChannel 1 10)) []).1.2) = true ∧
  flags (history [(DoSubscribe "orders" "s2", []); (DoGoroutine 0, []); (DoClose, [])]
           (Close (demo (NewGoChannel 1 10)) []).1.2)
  = [true; false].
Proof.
  split; [reflexivity|].
  destruct (no_queue_is_closed_after_Close
              (Close (demo (NewGoChannel 1 10)) []).1.2
              [(DoSubscribe "orders" "s2", []); (DoGoroutine 0, []); (DoClose, [])]
              eq_refl) as [_ [k Hk]].
  rewrite Hk. change (flags (Close (demo (NewGoChannel 1 10)) []).1.2) with [true] in *.
  assert (Hlen : length ([true] ++ replicate k false) = 2).
  { rewrite <- Hk. by vm_compute. }
  rewrite length_app, length_replicate in Hlen. simpl in Hlen.
  assert (k = 1) as -> by lia. reflexivity.
Defined.

(** ** Contexts *)

Lemma cancelCtx_idemp m : cancelCtx (cancelCtx m) = cancelCtx m.
Proof. unfold cancelCtx. by destruct m as [? ? ? ? []]. Qed.

Lemma deferred_lookup ds : ∀ (h : list Message) (p : ptr),
  foldr (λ p h, alter cancelCtx p h) h ds !! p
  = (if bool_decide (p ∈ ds) then cancelCtx else id) <$> h !! p.
Proof.
  induction ds as [|d ds IH]; intros h p; unfold ptr in *; simpl.
  - by destruct (h !! p).
  - destruct (decide (p = d)) as [->|Hne].
    + rewrite list_lookup_alter_eq, IH.
      rewrite (bool_decide_eq_true_2 (d ∈ d :: ds)) by apply list_elem_of_here.
      destruct (h !! d) as [m|]; [|done]. simpl.
      destruct (bool_decide (d ∈ ds)); [by rewrite cancelCtx_idemp|done].
    + rewrite list_lookup_alter_ne by done. rewrite IH.
      destruct (decide (p ∈ ds)) as [Hin|Hnin].
      * rewrite !bool_decide_eq_true_2; [done| |done]. by apply list_elem_of_further.
      * rewrite !bool_decide_eq_false_2; [done| |done].
        by intros [?|?]%elem_of_cons.
Qed.

Lemma pending_deferred n ds h :
  pending n ds h →
  Forall (λ m, ctx m = WithCancel true)
    (drop n (foldr (λ p h, alter cancelCtx p h) h ds)).
Proof.
  intros Hp. apply Forall_lookup. intros i m Hi.
  rewrite lookup_drop, deferred_lookup in Hi. unfold ptr in *.
  destruct (h !! (n + i)) as [m0|] eqn:Hm0; [|done].
  simpl in Hi. injection Hi as <-.
  destruct (Hp (n + i) m0 ltac:(lia) Hm0) as [Hc|[Hin Hc]].
  - unfold cancelCtx. destruct (bool_decide _); [|done]. by rewrite Hc.
  - rewrite bool_decide_eq_true_2 by done. unfold cancelCtx. by rewrite Hc.
Qed.

Lemma pending_copy n ds h m :
  pending n ds h →
  pending n (length h :: ds) (h ++ [SetContext (WithCancel false) (Copy m)]).
Proof.
  intros Hp p m' Hn Hl. apply lookup_app_Some in Hl as [Hl|[Hlen Hl]].
  - destruct (Hp p m' Hn Hl) as [Hc|[Hin Hc]]; [by left|right].
    split; [by apply list_elem_of_further|done].
  - apply list_lookup_singleton_Some in Hl as [Hz <-]. right.
    split; [|done]. assert (p = length h) as -> by lia. apply list_elem_of_here.
Qed.

Lemma pending_signal n ds h a q :
  pending n ds h → pending n ds (alter (setAck a) q h).
Proof.
  intros Hp p m Hn Hl. destruct (decide (p = q)) as [->|Hne].
  - rewrite list_lookup_alter_eq in Hl.
    destruct (h !! q) as [m0|] eqn:Hm0; [|done]. injection Hl as <-.
    exact (Hp q m0 Hn Hm0).
  - rewrite list_lookup_alter_ne in Hl by done. exact (Hp p m Hn Hl).
Qed.

Lemma sendLoop_ended msg s t o :
  ∀ ds w n, n ≤ length (heap w) → pending n ds (heap w) →
    ended n (sendLoop msg s t ds o w).
Proof.
  induction o as [|c|c1 c2 o IH] using schedule_ind; intros ds w n Hn Hp;
    cbn [sendLoop]; destruct (heap w !! msg) as [m|] eqn:Hm;
    repeat match goal with
           | |- context [match ?x with _ => _ end] => destruct x eqn:?
           end;
    try (apply IH;
         cbn [fst snd heap emit setHeap runDeferred pushTo setChans signal];
         [rewrite length_alter, length_app; lia
         |by apply pending_signal, pending_copy]);
    unfold ended;
    cbn [fst snd heap emit setHeap runDeferred pushTo setChans signal];
    try exact I;
    try (apply pending_deferred; try apply pending_signal;
         first [exact Hp | by apply pending_copy]);
    try (eexists; split; [apply last_snoc|]; split; [reflexivity|];
         rewrite length_app; simpl; lia).
Qed.

Lemma pending_nil n h :
  Forall (λ m, ctx m = WithCancel true) (drop n h) → pending n [] h.
Proof.
  intros Hall p m Hn Hl. left.
  rewrite Forall_lookup in Hall. apply (Hall (p - n)).
  rewrite lookup_drop. by replace (n + (p - n)) with p by lia.
Qed.

Lemma sendMessageToSubscriber_ended msg s t w o n :
  n ≤ length (heap w) →
  Forall (λ m, ctx m = WithCancel true) (drop n (heap w)) →
  ended n (sendMessageToSubscriber msg s t w o).
Proof.
  intros Hn Hall. apply sendLoop_ended; [exact Hn|by apply pending_nil].
Qed.

Lemma serve_ended msg subs :
  ∀ w o n, n ≤ length (heap w) →
    Forall (λ m, ctx m = WithCancel true) (drop n (heap w)) →
    ended n (serve msg subs w o).
Proof.
  induction subs as [|s subs IH]; intros w o n Hn Hall; [exact Hall|].
  cbn [serve]. unfold bind, gets. cbn [fst snd].
  pose proof (sendMessageToSubscriber_ended msg s (sendTimeout (engine w)) w o n
                Hn Hall) as Hend.
  pose proof (sendMessageToSubscriber_extends msg s (sendTimeout (engine w)) w o)
    as Hext.
  destruct (sendMessageToSubscriber msg s (sendTimeout (engine w)) w o)
    as [[[[e|]|q| |] w1] o1]; try exact Hend.
  apply IH; [|exact Hend].
  apply ext_heap, prefix_length in Hext. cbn [fst snd] in Hext. lia.
Qed.

Lemma sendMessage_ended topic msg w o n :
  n ≤ length (heap w) →
  Forall (λ m, ctx m = WithCancel true) (drop n (heap w)) →
  ended n (sendMessage topic msg w o).
Proof.
  intros Hn Hall. unfold sendMessage, bind, tell, deferred, gets.
  cbn [fst snd engine emit].
  destruct (subscribers (engine w) !! topic) as [subs|]; [|exact Hall].
  pose proof (serve_ended msg subs (emit (EvRLock subscribersLock) w) o n Hn Hall)
    as Hend.
  by destruct (serve msg subs (emit (EvRLock subscribersLock) w) o)
    as [[[e|q| |] w1] o1].
Qed.

Lemma deliver_ended topic msgs :
  ∀ w o n, n ≤ length (heap w) →
    Forall (λ m, ctx m = WithCancel true) (drop n (heap w)) →
    ended n (deliver topic msgs w o).
Proof.
  induction msgs as [|msg msgs IH]; intros w o n Hn Hall; [exact Hall|].
  cbn [deliver]. unfold bind.
  pose proof (sendMessage_ended topic msg w o n Hn Hall) as Hend.
  pose proof (sendMessage_extends topic msg w o) as Hext.
  destruct (sendMessage topic msg w o) as [[[[e|]|q| |] w1] o1]; try exact Hend.
  apply IH; [|exact Hend].
  apply ext_heap, prefix_length in Hext. cbn [fst snd] in Hext. lia.
Qed.

(** X10: every copy a publish makes gets a context of its own, and the
    deferred [cancelCtx] calls cancel all of them by the time the publish
    returns or panics, whatever the consumers answered.  While the
    publish is waiting for a consumer, the context of the copy it waits
    on is live. *)
Theorem Publish_cancels_the_contexts_of_its_copies
    (w : world) (o : list choice) (topic : string) (msgs : list ptr) :
  match (Publish topic msgs w o).1.1 with
  | Returned _ | Panicked _ =>
      Forall (λ m, ctx m = WithCancel true)
        (drop (length (heap w)) (heap (Publish topic msgs w o).1.2))
  | Blocked =>
      ∃ m, last (heap (Publish topic msgs w o).1.2) = Some m ∧
           ctx m = WithCancel false ∧
           length (heap w) < length (heap (Publish topic msgs w o).1.2)
  | Infeasible => True
  end.
Proof.
  rewrite Publish_deliver.
  destruct (recorded_frame topic msgs w) as (Hh & _).
  rewrite <- Hh. apply deliver_ended; [done|].
  by rewrite drop_all.
Qed.

(** ** Locks *)

Lemma held_app mu x evs1 evs2 :
  held mu x (evs1 ++ evs2) = (held mu x evs1 + held mu x evs2)%Z.
Proof. induction evs1 as [|e evs1 IH]; simpl; [done|]. rewrite IH. lia. Qed.

Lemma held_delivery mu x evs : Forall delivery evs → held mu x evs = 0%Z.
Proof.
  induction 1 as [|e evs He _ IH]; simpl; [done|]. rewrite IH.
  by destruct e.
Qed.

Lemma sendLoop_delivery msg s t o ds w :
  ∃ evs, log (sendLoop msg s t ds o w).1.2 = log w ++ evs ∧ Forall delivery evs.
Proof.
  destruct (sendLoop_log msg s t o ds w) as (evs & Hl & Hevs).
  exists evs. split; [exact Hl|]. eapply Forall_impl; [exact Hevs|].
  by intros [].
Qed.

Lemma serve_delivery msg subs :
  ∀ w o, ∃ evs, log (serve msg subs w o).1.2 = log w ++ evs ∧ Forall delivery evs.
Proof.
  induction subs as [|s subs IH]; intros w o.
  - exists []. split; [by rewrite app_nil_r|constructor].
  - cbn [serve]. unfold bind, gets. cbn [fst snd].
    destruct (sendLoop_delivery msg s (sendTimeout (engine w)) o [] w)
      as (evs1 & Hl1 & Hevs1).
    unfold sendMessageToSubscriber.
    destruct (sendLoop msg s (sendTimeout (engine w)) [] o w)
      as [[[[e|]|q| |] w1] o1]; cbn [fst snd] in *; eauto.
    destruct (IH w1 o1) as (evs2 & -> & Hevs2). rewrite Hl1.
    exists (evs1 ++ evs2). split; [by rewrite app_assoc|by apply Forall_app].
Qed.

Lemma sendMessage_locks topic msg w o :
  ∃ evs, log (sendMessage topic msg w o).1.2 = log w ++ evs ∧
    match (sendMessage topic msg w o).1.1 with
    | Returned _ | Panicked _ => ∀ mu x, held mu x evs = 0%Z
    | Blocked => ∀ mu x, held mu x evs = readLockOf subscribersLock mu x
    | Infeasible => True
    end.
Proof.
  unfold sendMessage, bind, tell, deferred, gets. cbn [fst snd engine emit].
  destruct (subscribers (engine w) !! topic) as [subs|].
  - destruct (serve_delivery msg subs (emit (EvRLock subscribersLock) w) o)
      as (evs & Hl & Hevs).
    destruct (serve msg subs (emit (EvRLock subscribersLock) w) o)
      as [[[e|q| |] w1] o1]; cbn [fst snd log emit] in *; rewrite Hl, <- ?app_assoc.
    + eexists. split; [reflexivity|]. intros mu x.
      rewrite (held_app _ _ [_]), held_app, (held_delivery _ _ _ Hevs).
      by destruct mu, x.
    + eexists. split; [reflexivity|]. intros mu x.
      rewrite (held_app _ _ [_]), held_app, (held_delivery _ _ _ Hevs).
      by destruct mu, x.
    + eexists. split; [reflexivity|]. intros mu x.
      rewrite (held_app _ _ [_]), (held_delivery _ _ _ Hevs).
      by destruct mu, x.
    + eexists. split; [reflexivity|]. done.
  - cbn [fst snd log emit ret]. rewrite <- app_assoc. eexists. split; [reflexivity|].
    intros mu x. by destruct mu, x.
Qed.

Lemma deliver_locks topic msgs :
  ∀ w o, ∃ evs, log (deliver topic msgs w o).1.2 = log w ++ evs ∧
    match (deliver topic msgs w o).1.1 with
    | Returned _ | Panicked _ => ∀ mu x, held mu x evs = 0%Z
    | Blocked => ∀ mu x, held mu x evs = readLockOf subscribersLock mu x
    | Infeasible => True
    end.
Proof.
  induction msgs as [|msg msgs IH]; intros w o.
  - exists []. split; [by rewrite app_nil_r|done].
  - cbn [deliver]. unfold bind.
    destruct (sendMessage_locks topic msg w o) as (evs1 & Hl1 & Hevs1).
    destruct (sendMessage topic msg w o) as [[[[e|]|q| |] w1] o1];
      cbn [fst snd] in *; eauto.
    destruct (IH w1 o1) as (evs2 & Hl2 & Hevs2). rewrite Hl2, Hl1.
    exists (evs1 ++ evs2). split; [by rewrite app_assoc|].
    destruct (deliver topic msgs w1 o1).1.1 as [a|q| |]; try done;
      intros mu x; rewrite held_app, Hevs1, Hevs2; lia.
Qed.

(** X11: a publish that has returned or panicked has released every lock
    it took.  A publish that is waiting for a consumer holds exactly one
    lock, a read lock of the registry: neither the retention log nor any
    write lock. *)
Theorem Publish_holds_the_registry_lock_while_it_waits
    (w : world) (o : list choice) (topic : string) (msgs : list ptr) :
  ∃ evs, log (Publish topic msgs w o).1.2 = log w ++ evs ∧
    match (Publish topic msgs w o).1.1 with
    | Returned _ | Panicked _ => ∀ mu x, held mu x evs = 0%Z
    | Blocked => ∀ mu x, held mu x evs = readLockOf subscribersLock mu x
    | Infeasible => True
    end.
Proof.
  rewrite Publish_deliver.
  destruct (deliver_locks topic msgs (recorded topic msgs w) o) as (evs & Hl & Hevs).
  assert (Hrec : ∃ evs0, log (recorded topic msgs w) = log w ++ evs0 ∧
                         ∀ mu x, held mu x evs0 = 0%Z).
  { unfold recorded, record, bind, gets, tell, modify. cbn [fst snd].
    destruct (persistent (engine w)); cbn [fst snd log emit setEngine ret].
    - rewrite <- !app_assoc. eexists. split; [reflexivity|].
      intros mu x. by destruct mu, x.
    - exists []. by rewrite app_nil_r. }
  destruct Hrec as (evs0 & Hl0 & Hevs0).
  exists (evs0 ++ evs). split; [by rewrite Hl, Hl0, app_assoc|].
  destruct (deliver topic msgs (recorded topic msgs w) o).1.1 as [a|q| |]; try done;
    intros mu x; rewrite held_app, Hevs0, Hevs; lia.
Qed.

(** X12: the goroutine of a subscription takes the read lock of the
    retention log first and holds it, alone, for as long as it replays:
    while it waits for the new consumer, and for ever when a replay
    panics, since that [RUnlock] is not deferred.  When it returns, all
    its locks are released. *)
Theorem subscription_holds_the_retention_lock_while_it_replays
    (w : world) (o : list choice) (topic : string) (s : subscriber) :
  ∃ evs, log (subscribeRoutine topic s w o).1.2 = log w ++ evs ∧
    match (subscribeRoutine topic s w o).1.1 with
    | Returned _ =>
        (∀ mu x, held mu x evs = 0%Z) ∧
        subscribersOf topic (subscribeRoutine topic s w o).1.2
        = subscribersOf topic w ++ [s]
    | Panicked _ | Blocked =>
        (∀ mu x, held mu x evs = readLockOf messagesMutex mu x) ∧
        subscribers (engine (subscribeRoutine topic s w o).1.2)
        = subscribers (engine w)
    | Infeasible => True
    end.
Proof.
  pose proof (subscribeRoutine_registers topic s w o) as Hreg.
  rewrite subscribeRoutine_run in *.
  destruct (replayRetained_log topic s (emit (EvRLock messagesMutex) w) o)
    as (evs & Hl & Hevs).
  pose proof (replayRetained_extends topic s (emit (EvRLock messagesMutex) w) o)
    as Hext.
  assert (Hq : ∀ mu x, held mu x evs = 0%Z).
  { intros mu x. apply held_delivery. eapply Forall_impl; [exact Hevs|]. by intros []. }
  destruct (replayRetained topic s (emit (EvRLock messagesMutex) w) o)
    as [[[[]|q| |] w1] o1]; cbn [fst snd log emit registered setEngine] in *;
    rewrite Hl, <- ?app_assoc.
  - eexists. split; [reflexivity|]. split; [|by eapply Hreg].
    intros mu x. rewrite (held_app _ _ [_]), held_app, Hq. by destruct mu, x.
  - eexists. split; [reflexivity|]. split; [|by rewrite (ext_engine _ _ Hext)].
    intros mu x. rewrite (held_app _ _ [_]), Hq. by destruct mu, x.
  - eexists. split; [reflexivity|]. split; [|by rewrite (ext_engine _ _ Hext)].
    intros mu x. rewrite (held_app _ _ [_]), Hq. by destruct mu, x.
  - eexists. split; [reflexivity|]. done.
Qed.

(** ** Errors *)

Lemma sendLoop_error msg m s t o :
  ∀ ds w e, heap w !! msg = Some m →
    (sendLoop msg s t ds o w).1.1 = Returned (Some e) →
    e = SendTimeouted (UUID m) t ∧ t ≠ noTimeout.
Proof.
  induction o as [|c|c1 c2 o IH] using schedule_ind; intros ds w e Hm;
    cbn [sendLoop]; rewrite Hm;
    repeat match goal with
           | |- context [match ?x with _ => _ end] => destruct x eqn:?
           end;
    cbn [fst snd]; try discriminate;
    try (intros [= <-]; unfold timeoutChan in *;
         destruct (t =? noTimeout)%Z eqn:Ht; [discriminate|];
         apply Z.eqb_neq in Ht; split; [congruence|done]).
  apply IH. cbn [heap emit signal setHeap pushTo setChans].
  rewrite list_lookup_alter_ne by (apply lookup_lt_Some in Hm; lia).
  by apply lookup_app_l_Some.
Qed.

Lemma serve_error msg m subs :
  ∀ w o e, heap w !! msg = Some m →
    (serve msg subs w o).1.1 = Returned (Some e) →
    e = SendTimeouted (UUID m) (sendTimeout (engine w)) ∧
    sendTimeout (engine w) ≠ noTimeout ∧ subs ≠ [].
Proof.
  induction subs as [|s subs IH]; intros w o e Hm; [done|].
  cbn [serve]. unfold bind, gets. cbn [fst snd].
  pose proof (sendLoop_error msg m s (sendTimeout (engine w)) o [] w) as Herr.
  pose proof (sendMessageToSubscriber_extends msg s (sendTimeout (engine w)) w o)
    as Hext.
  unfold sendMessageToSubscriber in *.
  destruct (sendLoop msg s (sendTimeout (engine w)) [] o w)
    as [[[[e'|]|q| |] w1] o1]; cbn [fst snd] in *; try discriminate.
  - intros [= <-]. destruct (Herr e' Hm eq_refl) as [-> Hne]. done.
  - intros Hrest.
    destruct (IH w1 o1 e (extends_lookup _ _ _ _ Hext Hm) Hrest) as (-> & Hne & _).
    rewrite (ext_engine _ _ Hext) in *. done.
Qed.

Lemma sendMessage_error topic msg m w o e :
  heap w !! msg = Some m →
  (sendMessage topic msg w o).1.1 = Returned (Some e) →
  e = SendTimeouted (UUID m) (sendTimeout (engine w)) ∧
  sendTimeout (engine w) ≠ noTimeout ∧ subscribersOf topic w ≠ [].
Proof.
  intros Hm. unfold sendMessage, subscribersOf, bind, tell, deferred, gets.
  cbn [fst snd engine emit].
  destruct (subscribers (engine w) !! topic) as [subs|]; [|done].
  pose proof (serve_error msg m subs (emit (EvRLock subscribersLock) w) o) as Herr.
  destruct (serve msg subs (emit (EvRLock subscribersLock) w) o)
    as [[[e'|q| |] w1] o1]; cbn [fst snd] in *; try discriminate.
  intros [= ->]. exact (Herr e Hm eq_refl).
Qed.

Lemma deliver_error topic msgs :
  ∀ w o e, allocated w msgs →
    (deliver topic msgs w o).1.1 = Returned (Some e) →
    ∃ msg m, msg ∈ msgs ∧ heap w !! msg = Some m ∧
      e = SendTimeouted (UUID m) (sendTimeout (engine w)) ∧
      sendTimeout (engine w) ≠ noTimeout ∧ subscribersOf topic w ≠ [].
Proof.
  induction msgs as [|msg msgs IH]; intros w o e Ha; [done|].
  apply Forall_cons in Ha as [[m Hm] Ha].
  cbn [deliver]. unfold bind.
  pose proof (sendMessage_error topic msg m w o) as Herr.
  pose proof (sendMessage_extends topic msg w o) as Hext.
  destruct (sendMessage topic msg w o) as [[[[e'|]|q| |] w1] o1];
    cbn [fst snd] in *; try discriminate.
  - intros [= <-]. exists msg, m. split; [apply list_elem_of_here|].
    split; [exact Hm|]. exact (Herr e' Hm eq_refl).
  - intros Hrest.
    destruct (IH w1 o1 e (allocated_extends _ _ _ Hext Ha) Hrest)
      as (msg' & m' & Hin & Hm' & -> & Hne & Hsubs).
    rewrite (extends_subscribersOf _ _ _ Hext) in Hsubs.
    rewrite (ext_engine _ _ Hext) in *.
    exists msg', m'. split; [by apply list_elem_of_further|].
    split; [|done].
    apply Forall_forall with (x := msg') in Ha as [m0 Hm0]; [|done].
    pose proof (extends_lookup _ _ _ _ Hext Hm0) as Hm1.
    assert (m0 = m') as <- by (unfold ptr in *; congruence). exact Hm0.
Qed.

(** X13: the only error a publish of allocated messages returns is the
    timeout of a send: it carries the identifier of one of the published
    messages and the configured send timeout, which then is not the
    sentinel, and somebody is registered on the topic. *)
Theorem Publish_error_is_a_timeout
    (w : world) (o : list choice) (topic : string) (msgs : list ptr) (e : error)
    (Ha : allocated w msgs)
    (He : (Publish topic msgs w o).1.1 = Returned (Some e)) :
  ∃ msg m, msg ∈ msgs ∧ heap w !! msg = Some m ∧
    e = SendTimeouted (UUID m) (sendTimeout (engine w)) ∧
    sendTimeout (engine w) ≠ noTimeout ∧ subscribersOf topic w ≠ [].
Proof.
  rewrite Publish_deliver in He.
  destruct (recorded_frame topic msgs w) as (Hh & _ & _ & Ht & Hs & _).
  destruct (deliver_error topic msgs (recorded topic msgs w) o e) as
    (msg & m & Hin & Hm & -> & Hne & Hsubs); [|exact He|].
  - unfold allocated in *. by rewrite Hh.
  - exists msg, m. unfold subscribersOf in *. rewrite Hh, Ht, Hs in *. done.
Qed.

Lemma Publish_error_is_a_timeout_witness :
  allocated (demo3 (NewGoChannel 1 10)) [0] ∧
  (Publish "orders" [0] (demo3 (NewGoChannel 1 10)) [Push; Acks; TimerFires]).1.1
  = Returned (Some (SendTimeouted "m1" 10)) ∧
  ∃ msg m, msg ∈ [0] ∧ heap (demo3 (NewGoChannel 1 10)) !! msg = Some m ∧
    SendTimeouted "m1" 10 = SendTimeouted (UUID m) 10.
Proof.
  assert (Ha : allocated (demo3 (NewGoChannel 1 10)) [0]).
  { apply Forall_cons_2; [|apply Forall_nil_2].
    exists (NewMessage "m1" "hello"). vm_compute. reflexivity. }
  assert (He : (Publish "orders" [0] (demo3 (NewGoChannel 1 10))
                  [Push; Acks; TimerFires]).1.1
               = Returned (Some (SendTimeouted "m1" 10)))
    by (vm_compute; reflexivity).
  split; [exact Ha|]. split; [exact He|].
  destruct (Publish_error_is_a_timeout _ _ _ _ _ Ha He)
    as (msg & m & Hin & Hm & Heq & _).
  exists msg, m. done.
Defined.

(** ** Publish, then subscribe *)







(** ** What a nil result means *)

Lemma ackedBy_app evs1 evs2 : ackedBy (evs1 ++ evs2) = ackedBy evs1 ++ ackedBy evs2.
Proof. apply omap_app. Qed.

Lemma sendLoop_returns_acked msg m s t o :
  ∀ ds w w' o', closing (engine w) = false → heap w !! msg = Some m →
    sendLoop msg s t ds o w = (Returned None, w', o') →
    ∃ evs, log w' = log w ++ evs ∧ ackedBy evs = [(UUID m, uuid s)].
Proof.
  induction o as [|c|c1 c2 o IH] using schedule_ind; intros ds w w' o' Hcl Hm;
    cbn [sendLoop]; rewrite Hm;
    repeat match goal with
           | |- context [match ?x with _ => _ end] => destruct x eqn:?
           end;
    try (intros [=]; fail);
    try (cbn [engine emit pushTo setChans setHeap] in *; congruence).
  - intros [= <- <-].
    cbn [log runDeferred setHeap emit signal pushTo setChans].
    rewrite <- !app_assoc. eexists. split; [reflexivity|reflexivity].
  - intros Hrun. apply IH in Hrun as (evs & -> & Hevs).
    + cbn [log runDeferred setHeap emit signal pushTo setChans].
      rewrite <- !app_assoc. eexists. split; [reflexivity|].
      rewrite !ackedBy_app. exact Hevs.
    + exact Hcl.
    + cbn [heap emit signal setHeap pushTo setChans].
      rewrite list_lookup_alter_ne by (apply lookup_lt_Some in Hm; lia).
      by apply lookup_app_l_Some.
Qed.

Lemma serve_returns_acked msg m subs :
  ∀ w o w' o', closing (engine w) = false → heap w !! msg = Some m →
    serve msg subs w o = (Returned None, w', o') →
    ∃ evs, log w' = log w ++ evs ∧
           ackedBy evs = (λ s, (UUID m, uuid s)) <$> subs.
Proof.
  induction subs as [|s subs IH]; intros w o w' o' Hcl Hm.
  - intros [= <- <-]. exists []. by rewrite app_nil_r.
  - cbn [serve]. unfold bind, gets. cbn [fst snd].
    pose proof (sendLoop_returns_acked msg m s (sendTimeout (engine w)) o [] w)
      as Hone.
    pose proof (sendMessageToSubscriber_extends msg s (sendTimeout (engine w)) w o)
      as Hext.
    unfold sendMessageToSubscriber in *.
    destruct (sendLoop msg s (sendTimeout (engine w)) [] o w)
      as [[[[e|]|q| |] w1] o1]; cbn [fst snd] in *; try discriminate.
    intros Hrest.
    destruct (Hone w1 o1 Hcl Hm eq_refl) as (evs1 & Hl1 & Hevs1).
    apply IH in Hrest as (evs2 & -> & Hevs2).
    + exists (evs1 ++ evs2). rewrite Hl1, <- app_assoc. split; [done|].
      by rewrite ackedBy_app, Hevs1, Hevs2.
    + by rewrite (ext_engine _ _ Hext).
    + by eapply extends_lookup.
Qed.

Lemma sendMessage_returns_acked topic msg m w o w' o' :
  closing (engine w) = false → heap w !! msg = Some m →
  sendMessage topic msg w o = (Returned None, w', o') →
  ∃ evs, log w' = log w ++ evs ∧
         ackedBy evs = (λ s, (UUID m, uuid s)) <$> subscribersOf topic w.
Proof.
  intros Hcl Hm. unfold sendMessage, subscribersOf, bind, tell, deferred, gets.
  cbn [fst snd engine emit].
  destruct (subscribers (engine w) !! topic) as [subs|]; cbn [default].
  - pose proof (serve_returns_acked msg m subs (emit (EvRLock subscribersLock) w) o)
      as Hserve.
    destruct (serve msg subs (emit (EvRLock subscribersLock) w) o)
      as [[[[e|]|q| |] w1] o1]; cbn [fst snd] in *; try discriminate.
    intros [= <- <-].
    destruct (Hserve w1 o1 Hcl Hm eq_refl) as (evs & Hl & Hevs).
    cbn [log emit] in *. rewrite Hl, <- !app_assoc. eexists. split; [reflexivity|].
    rewrite (ackedBy_app [_]), ackedBy_app, Hevs. simpl. by rewrite app_nil_r.
  - intros [= <- <-]. cbn [log emit]. rewrite <- app_assoc.
    eexists. split; [reflexivity|]. done.
Qed.

Lemma deliver_returns_acked topic msgs :
  ∀ ms w o w' o', closing (engine w) = false →
    Forall2 (λ p m, heap w !! p = Some m) msgs ms →
    deliver topic msgs w o = (Returned None, w', o') →
    ∃ evs, log w' = log w ++ evs ∧
           ackedBy evs =
           flat_map (λ m, (λ s, (UUID m, uuid s)) <$> subscribersOf topic w) ms.
Proof.
  induction msgs as [|msg msgs IH]; intros ms w o w' o' Hcl Hms.
  - apply Forall2_nil_inv_l in Hms as ->. intros [= <- <-].
    exists []. by rewrite app_nil_r.
  - apply Forall2_cons_inv_l in Hms as (m & ms' & Hm & Hms & ->).
    cbn [deliver]. unfold bind.
    pose proof (sendMessage_returns_acked topic msg m w o) as Hone.
    pose proof (sendMessage_extends topic msg w o) as Hext.
    destruct (sendMessage topic msg w o) as [[[[e|]|q| |] w1] o1];
      cbn [fst snd] in *; try discriminate.
    intros Hrest.
    destruct (Hone w1 o1 Hcl Hm eq_refl) as (evs1 & Hl1 & Hevs1).
    apply (IH ms') in Hrest as (evs2 & -> & Hevs2).
    + exists (evs1 ++ evs2). rewrite Hl1, <- app_assoc. split; [done|].
      rewrite ackedBy_app, Hevs1, Hevs2.
      by rewrite (extends_subscribersOf _ _ _ Hext).
    + by rewrite (ext_engine _ _ Hext).
    + eapply Forall2_impl; [exact Hms|]. intros p m' Hp.
      exact (extends_lookup _ _ _ _ Hext Hp).
Qed.

(** X15: what a nil result means.  Before [Close], a publish returns nil
    only when every subscriber registered on the topic has acked a copy
    of every message of the call: the acknowledgements it logged are,
    message by message in the order of the call, those of the
    subscribers in the order of their registration, however many copies
    were nacked on the way. *)
Theorem Publish_returns_nil_only_when_all_acked
    (w w' : world) (o o' : list choice) (topic : string)
    (msgs : list ptr) (ms : list Message)
    (Hcl : closing (engine w) = false)
    (Hms : Forall2 (λ p m, heap w !! p = Some m) msgs ms)
    (Hrun : Publish topic msgs w o = (Returned None, w', o')) :
  ∃ evs, log w' = log w ++ evs ∧
    ackedBy evs =
    flat_map (λ m, (λ s, (UUID m, uuid s)) <$> subscribersOf topic w) ms.
Proof.
  rewrite Publish_deliver in Hrun.
  destruct (recorded_frame topic msgs w) as (Hh & _ & _ & _ & Hs & _ & Hcg & _).
  apply (deliver_returns_acked topic msgs ms) in Hrun as (evs & Hl & Hevs).
  - assert (Hrec : ∃ evs0, log (recorded topic msgs w) = log w ++ evs0 ∧
                           ackedBy evs0 = []).
    { unfold recorded, record, bind, gets, tell, modify. cbn [fst snd].
      destruct (persistent (engine w)); cbn [fst snd log emit setEngine ret].
      - rewrite <- !app_assoc. eexists. split; [reflexivity|done].
      - exists []. by rewrite app_nil_r. }
    destruct Hrec as (evs0 & Hl0 & Hevs0).
    exists (evs0 ++ evs). rewrite Hl, Hl0, <- app_assoc. split; [done|].
    rewrite ackedBy_app, Hevs0, Hevs. unfold subscribersOf. by rewrite Hs.
  - by rewrite Hcg.
  - by rewrite Hh.
Qed.

Lemma Publish_returns_nil_only_when_all_acked_witness :
  ackedBy (drop (length (log (demo3 (NewGoChannel 1 10))))
             (log (Publish "orders" [0] (demo3 (NewGoChannel 1 10))
                     [Push; Nacks; Push; Acks; Push; Acks; Push; Acks]).1.2))
  = [("m1", "s1"); ("m1", "s2"); ("m1", "s3")].
Proof.
  destruct (Publish_returns_nil_only_when_all_acked
              (demo3 (NewGoChannel 1 10))
              (Publish "orders" [0] (demo3 (NewGoChannel 1 10))
                 [Push; Nacks; Push; Acks; Push; Acks; Push; Acks]).1.2
              [Push; Nacks; Push; Acks; Push; Acks; Push; Acks] []
              "orders" [0] [NewMessage "m1" "hello"]
              eq_refl
              ltac:(repeat constructor)
              ltac:(vm_compute; reflexivity)) as (evs & Hl & Hevs).
  rewrite Hl, drop_app_length. exact Hevs.
Defined.
